(** * ParSort: a fork-join merge sort over a shared array of 64-bit integers

    Shallow embedding of [parsort.c].  The shared array that [arr] points to
    is a [list Z]; [size_t] values are integers with their wrap-around modulo
    [2^64] written out; pointers into the array are indices.  Code that can
    terminate the process ([fatal], [assert]) or leave the allocated objects
    lives in a small state-and-outcome monad over the shared array.

    The two children of a split work on disjoint spans of the shared array
    and the parent reads neither half before both have terminated, so the
    model runs the left child to completion before the right one; that the
    other order ends the same way is [children_commute].

    A child can also be ended from outside, by a signal.  The model has the
    signal arrive before the child has written to the array; what holds
    only when no signal arrives says so ([unsignalled]).  A parent that
    exits through [fatal] does not wait for the children it has created:
    the array of an [Exited] outcome is the array once those children have
    come to their end. *)

From stdpp Require Import base list sorting strings.
From Equations Require Import Equations.
From Stdlib Require Import ZArith Lia.

Local Open Scope Z_scope.

(** ** Machine integers *)

(** [size_t] is an unsigned 64-bit integer. *)
Definition SIZE_MODULUS : Z := 2 ^ 64.

Definition is_size_t (z : Z) : Prop := 0 <= z < SIZE_MODULUS.

Definition size_add (a b : Z) : Z := (a + b) mod SIZE_MODULUS.
Definition size_sub (a b : Z) : Z := (a - b) mod SIZE_MODULUS.
Definition size_mul (a b : Z) : Z := (a * b) mod SIZE_MODULUS.

(** [sizeof(int64_t)] *)
Definition SIZEOF_INT64 : Z := 8.

(** ** compare_i64 *)

Definition compare_i64 (left_ right_ : Z) : Z :=
  if left_ <? right_ then -1
  else if left_ >? right_ then 1
  else 0.

(** The order a comparison function induces on the elements: [x] may stand
    before [y] when the function does not answer "greater". *)
Definition cmp_le (cmp : Z → Z → Z) : relation Z := λ x y, cmp x y <= 0.

Definition i64_le : relation Z := cmp_le compare_i64.

(** ** The C library's qsort

    [qsort] is not part of the program.  It is taken with the contract the
    C standard gives it: for a comparison function that answers consistently
    with a total order, the array ends up as a rearrangement of its former
    contents, ascending according to the comparison function.  Which
    algorithm it runs, and where it leaves elements that compare equal, is
    not known. *)

Record consistent (cmp : Z → Z → Z) : Prop := {
  cmp_antisym : ∀ x y, Z.sgn (cmp x y) = - Z.sgn (cmp y x);
  cmp_trans : ∀ x y z, cmp x y <= 0 → cmp y z <= 0 → cmp x z <= 0
}.

Class Libc := {
  qsort : (Z → Z → Z) → list Z → list Z;
  qsort_Permutation : ∀ cmp l, consistent cmp → qsort cmp l ≡ₚ l;
  qsort_Sorted : ∀ cmp l, consistent cmp → Sorted (cmp_le cmp) (qsort cmp l)
}.

(** One implementation of the contract: straight insertion. *)
Fixpoint insert_by (cmp : Z → Z → Z) (x : Z) (l : list Z) : list Z :=
  match l with
  | [] => [x]
  | y :: l' => if cmp x y <=? 0 then x :: y :: l' else y :: insert_by cmp x l'
  end.

Fixpoint insertion_sort (cmp : Z → Z → Z) (l : list Z) : list Z :=
  match l with
  | [] => []
  | x :: l' => insert_by cmp x (insertion_sort cmp l')
  end.

(** ** Memory *)

(** Reading and writing one cell of an allocated object.  [None] is an
    access outside the object, which C leaves undefined. *)
Definition load {A} (m : list A) (i : Z) : option A :=
  if 0 <=? i then m !! Z.to_nat i else None.

Definition store {A} (m : list A) (i : Z) (v : A) : option (list A) :=
  if (0 <=? i) && (i <? Z.of_nat (length m))
  then Some (<[Z.to_nat i := v]> m)
  else None.

(** The cells [begin, end_) of an array. *)
Definition span {A} (m : list A) (begin end_ : Z) : list A :=
  take (Z.to_nat (end_ - begin)) (drop (Z.to_nat begin) m).

(** A freshly allocated buffer: cells that hold no value yet.  Reading such
    a cell is a fault like an access out of bounds. *)
Definition buffer := list (option Z).

Definition fresh_buffer (bytes : Z) : buffer :=
  replicate (Z.to_nat (bytes / SIZEOF_INT64)) None.

(** ** Outcomes of a computation in one process *)

Inductive res (A : Type) : Type :=
| Ret (a : A)                    (* ran to its end *)
| Exited (code : Z) (msg : string) (* exit(code), [msg] written to stderr *)
| Aborted                        (* a failed assert: abort(), SIGABRT *)
| Fault                          (* access outside an allocated object *)
| Timeout.                       (* the model's recursion budget ran out *)
Arguments Ret {A} a.
Arguments Exited {A} code msg.
Arguments Aborted {A}.
Arguments Fault {A}.
Arguments Timeout {A}.

(** A computation reads and updates the shared array.  What a process wrote
    before it stopped stays written. *)
Definition proc (A : Type) : Type := list Z → res A * list Z.

Definition ret {A} (a : A) : proc A := λ m, (Ret a, m).

Definition bind {A B} (c : proc A) (k : A → proc B) : proc B :=
  λ m, match c m with
       | (Ret a, m') => k a m'
       | (Exited code msg, m') => (Exited code msg, m')
       | (Aborted, m') => (Aborted, m')
       | (Fault, m') => (Fault, m')
       | (Timeout, m') => (Timeout, m')
       end.

Notation "'let*' x ':=' c 'in' k" := (bind c (λ x, k))
  (at level 10, x name, c at level 100, k at level 200).

Definition stop {A} (r : res A) : proc A := λ m, (r, m).

(** [assert(b)] with assertions compiled in. *)
Definition c_assert (b : bool) : proc unit :=
  if b then ret tt else stop Aborted.

(** ** fatal *)

(** Prints ["Error: " msg] on stderr and exits with status 1. *)
Definition fatal {A} (msg : string) : proc A := stop (Exited 1 msg).

(** ** merge *)

(** [*dst++ = *src++]: one element goes from the array to the buffer. *)
Definition copy_elem (arr : list Z) (src : Z) (temparr : buffer) (dst : Z)
  : option buffer :=
  v ← load arr src; store temparr dst (Some v).

(** The loop of [merge].  [endl] and [endr] are the ends of the two halves,
    [left_], [right_] and [dst] the three cursors.  The answer is the buffer
    when the loop breaks, [None] for an access out of bounds.  Every turn
    that does not break moves one of the two read cursors towards its end. *)
Equations? merge_loop (arr : list Z) (endl endr left_ right_ dst : Z)
  (temparr : buffer) : option buffer
  by wf (Z.to_nat (endl - left_) + Z.to_nat (endr - right_))%nat lt :=
  merge_loop arr endl endr left_ right_ dst temparr
    with Z_ge_dec left_ endl, Z_ge_dec right_ endr => {
    | left at_end_l, left at_end_r => Some temparr
    | left at_end_l, right _ =>
        match copy_elem arr right_ temparr dst with
        | Some t => merge_loop arr endl endr left_ (right_ + 1) (dst + 1) t
        | None => None
        end
    | right _, left at_end_r =>
        match copy_elem arr left_ temparr dst with
        | Some t => merge_loop arr endl endr (left_ + 1) right_ (dst + 1) t
        | None => None
        end
    | right _, right _ =>
        match load arr left_, load arr right_ with
        | Some x, Some y =>
            let cmp := compare_i64 x y in
            if cmp <=? 0 then
              match copy_elem arr left_ temparr dst with
              | Some t => merge_loop arr endl endr (left_ + 1) right_ (dst + 1) t
              | None => None
              end
            else
              match copy_elem arr right_ temparr dst with
              | Some t => merge_loop arr endl endr left_ (right_ + 1) (dst + 1) t
              | None => None
              end
        | _, _ => None
        end }.
Proof. all: lia. Qed.

Definition merge (arr : list Z) (begin mid end_ : Z) (temparr : buffer)
  : option buffer :=
  let endl := mid in
  let endr := end_ in
  merge_loop arr endl endr begin mid 0 temparr.

(** ** Processes *)

(** The termination status that [waitpid] stores, in the encoding of Linux:
    the low seven bits hold the terminating signal (zero after [exit]), bit
    7 the core-dump flag, bits 8 to 15 the exit code. *)
Definition W_EXITCODE (code sig : Z) : Z := Z.lor (Z.shiftl code 8) sig.
Definition WTERMSIG (status : Z) : Z := Z.land status 127.
Definition WIFEXITED (status : Z) : bool := WTERMSIG status =? 0.
Definition WEXITSTATUS (status : Z) : Z := Z.shiftr (Z.land status 65280) 8.
Definition WIFSIGNALED (status : Z) : bool :=
  negb (WIFEXITED status) && negb (WTERMSIG status =? 127).
Definition SIGABRT : Z := 6.

(** Signals that end a process which, like this program, handles none of
    them, and that leave no core dump. *)
Inductive signal : Type :=
| SIGHUP | SIGINT | SIGKILL | SIGUSR1 | SIGUSR2 | SIGPIPE | SIGALRM | SIGTERM.

(** Their numbers on Linux. *)
Definition signo (s : signal) : Z :=
  match s with
  | SIGHUP => 1 | SIGINT => 2 | SIGKILL => 9 | SIGUSR1 => 10
  | SIGUSR2 => 12 | SIGPIPE => 13 | SIGALRM => 14 | SIGTERM => 15
  end.

(** What the parent holds of a child it has created: the pid, and with it
    the status the child terminates with. *)
Record pid_t := Pid { status_of : Z }.

(** What the operating system may do to one call of [merge_sort]: the calls
    it refuses, and the signal, if any, that ends a child of the call. *)
Record os_faults := {
  fork_fails_left : bool;
  fork_fails_right : bool;
  signal_left : option signal;
  signal_right : option signal;
  waitpid_fails_left : bool;
  waitpid_fails_right : bool;
  malloc_fails : bool
}.

(** One [os_faults] for every process of the tree, found by the path from
    the root ([false] to the left child, [true] to the right child). *)
Definition env : Type := list bool → os_faults.

Definition child_env (right_child : bool) (os : env) : env :=
  λ path, os (right_child :: path).

(** The status of a child from the way its [merge_sort] ended.  A child
    whose [merge_sort] returns calls [exit(0)]. *)
Definition child_status (r : res unit) : option Z :=
  match r with
  | Ret _ => Some (W_EXITCODE 0 0)
  | Exited code _ => Some (W_EXITCODE (Z.land code 255) 0)
  | Aborted => Some (W_EXITCODE 0 SIGABRT)
  | Fault | Timeout => None
  end.

(** ** wait_for_sort_process *)

Definition wait_for_sort_process (waitpid_fails : bool) (pid : pid_t)
  : proc unit :=
  if waitpid_fails then fatal "Error: waitpid failure"
  else
    let status := status_of pid in
    if WIFEXITED status && negb (WEXITSTATUS status =? 0)
    then fatal "Error: Child process exited with error"
    else ret tt.

(** ** create_sort_process *)

(** [sort] is [merge_sort] as the child runs it.  A child that a signal
    ends has written nothing yet, and its status tells the signal. *)
Definition create_sort_process (sort : Z → Z → Z → proc unit)
  (fork_fails : bool) (killed : option signal) (begin end_ threshold : Z)
  : proc pid_t :=
  if fork_fails then fatal "Error: fork failed to start a new process"
  else
    match killed with
    | Some s => ret (Pid (W_EXITCODE 0 (signo s)))
    | None => λ arr,
        let '(r, arr') := sort begin end_ threshold arr in
        match child_status r with
        | Some status => (Ret (Pid status), arr')
        | None => (match r with Fault => Fault | _ => Timeout end, arr')
        end
    end.

(** ** The copy back to the main array *)

Equations? copy_back (temp_arr : buffer) (begin size i : Z) (arr : list Z)
  : option (list Z) by wf (Z.to_nat (size - i)) lt :=
  copy_back temp_arr begin size i arr with Z_lt_dec i size => {
    | left _ =>
        match load temp_arr i with
        | Some (Some v) =>
            match store arr (size_add begin i) v with
            | Some arr' => copy_back temp_arr begin size (i + 1) arr'
            | None => None
            end
        | _ => None
        end
    | right _ => Some arr }.
Proof. lia. Qed.

Section Program.
Context {libc : Libc}.

(** ** seq_sort *)

Definition seq_sort (begin end_ : Z) : proc unit := λ arr,
  let num_elements := size_sub end_ begin in
  if (0 <=? begin) && (begin + num_elements <=? Z.of_nat (length arr)) then
    (Ret tt,
     take (Z.to_nat begin) arr
       ++ qsort compare_i64 (span arr begin (begin + num_elements))
       ++ drop (Z.to_nat (begin + num_elements)) arr)
  else (Fault, arr).

(** ** merge_sort *)

(** The last part of [merge_sort]: allocate the temporary array, merge the
    two halves into it, copy it back. *)
Definition merge_halves (malloc_fails : bool) (begin mid end_ size : Z)
  : proc unit :=
  if malloc_fails then fatal "malloc() failed"
  else λ arr,
    let temp_arr := fresh_buffer (size_mul size SIZEOF_INT64) in
    match merge arr begin mid end_ temp_arr with
    | Some temp_arr' =>
        match copy_back temp_arr' begin size 0 arr with
        | Some arr' => (Ret tt, arr')
        | None => (Fault, arr)
        end
    | None => (Fault, arr)
    end.

Fixpoint merge_sort (fuel : nat) (os : env) (begin end_ threshold : Z)
  : proc unit :=
  match fuel with
  | O => stop Timeout
  | S fuel' =>
      let* _ := c_assert (end_ >=? begin) in
      let size := size_sub end_ begin in
      if size <=? threshold then seq_sort begin end_
      else
        let mid := size_add begin (size / 2) in
        let* left_pid :=
          create_sort_process (merge_sort fuel' (child_env false os))
            (fork_fails_left (os [])) (signal_left (os []))
            begin mid threshold in
        let* right_pid :=
          create_sort_process (merge_sort fuel' (child_env true os))
            (fork_fails_right (os [])) (signal_right (os []))
            mid end_ threshold in
        let* _ := wait_for_sort_process (waitpid_fails_left (os [])) left_pid in
        let* _ := wait_for_sort_process (waitpid_fails_right (os [])) right_pid in
        merge_halves (malloc_fails (os [])) begin mid end_ size
  end.

End Program.

(** ** main *)

(** [strtoul] of the C library in base 10, as [main] uses it: the value,
    an [unsigned long], and the number of characters of the argument that
    were consumed, that is the place [end] points to. *)
Class Strtoul := {
  strtoul : string → Z * nat;
  strtoul_ulong : ∀ s, 0 <= (strtoul s).1 < SIZE_MODULUS
}.

(** [strtoul] in base 10 as the C standard describes it.  White space at
    the front is skipped, one sign may follow, then come the digits.
    Without a digit nothing is consumed and the value is 0.  A value that
    does not fit is [ULONG_MAX]; one with a minus sign is negated as an
    [unsigned long]. *)
Definition isspace (c : Ascii.ascii) : bool :=
  let n := Ascii.nat_of_ascii c in
  (n =? 32)%nat || ((9 <=? n)%nat && (n <=? 13)%nat).

Fixpoint skip_space (s : string) (consumed : nat) : string * nat :=
  match s with
  | String c s' =>
      if isspace c then skip_space s' (S consumed) else (s, consumed)
  | EmptyString => (s, consumed)
  end.

Fixpoint leading_digits (s : string) (acc : Z) (consumed : nat) : Z * nat :=
  match s with
  | String c s' =>
      let d := Z.of_nat (Ascii.nat_of_ascii c) - 48 in
      if (0 <=? d) && (d <=? 9)
      then leading_digits s' (acc * 10 + d) (S consumed)
      else (acc, consumed)
  | EmptyString => (acc, consumed)
  end.

Definition strtoul_base10 (s : string) : Z * nat :=
  let '(s1, n1) := skip_space s 0 in
  let '(negative, s2, n2) :=
    match s1 with
    | String c s' =>
        if (Ascii.nat_of_ascii c =? 45)%nat then (true, s', S n1)
        else if (Ascii.nat_of_ascii c =? 43)%nat then (false, s', S n1)
        else (false, s1, n1)
    | EmptyString => (false, s1, n1)
    end in
  let '(v, n3) := leading_digits s2 0 n2 in
  if (n3 =? n2)%nat then (0, 0%nat)
  else if SIZE_MODULUS <=? v then (SIZE_MODULUS - 1, n3)
  else ((if negative then - v else v) mod SIZE_MODULUS, n3).

(** What the operating system answers to the calls of [main]. *)
Record os_calls := {
  open_fd : Z;        (* open: the descriptor, negative on failure *)
  fstat_rc : Z;       (* fstat: zero on success *)
  st_size : Z;        (* the size of the file in bytes, an off_t *)
  mmap_fails : bool;  (* mmap answered MAP_FAILED *)
  munmap_rc : Z;      (* munmap: zero on success *)
  close_rc : Z;       (* close: zero on success *)
  strerror_errno : string (* the text of the error of a failed call *)
}.

(** [perror(s)] writes [s], a colon, a blank and the text of the error.
    The strings that [main] passes end in a newline, so the colon and the
    text of the error are a line of their own; [line] is [s] without its
    newline. *)
Definition perror (sys : os_calls) (line : string) : list string :=
  [line; ": " +:+ strerror_errno sys].

Section Main.
Context {libc : Libc} {stdlib : Strtoul}.

(** The file is the list of its 64-bit words: the mapping is shared, so
    what [merge_sort] leaves in the mapped array is what the file holds.
    The answer is what the root process writes on stderr, line by line,
    how the process ends ([Ret] with the value [main] returns), and the
    file. *)
Definition main (fuel : nat) (os : env) (sys : os_calls) (argv : list string)
    (file : list Z) : list string * (res Z * list Z) :=
  let argc := Z.of_nat (length argv) in
  if negb (argc =? 3) then
    (["Usage: " +:+ default "" (argv !! 0%nat)
        +:+ " <filename> <sequential threshold>"],
     (Ret 1, file))
  else
    let arg := default "" (argv !! 2%nat) in
    let '(threshold, end_) := strtoul arg in
    let invalid :=
      if (end_ =? String.length arg)%nat then []
      else ["Error: threshold value is invalid"] in
    if open_fd sys <? 0 then
      (invalid ++ ["Error: failed to open file"], (Ret 1, file))
    else if negb (fstat_rc sys =? 0) then
      (invalid ++ perror sys "Error: Failed to get file status",
       (Ret 1, file))
    else
      let file_size := st_size sys mod SIZE_MODULUS in
      if mmap_fails sys then
        (invalid ++ perror sys "Error: Failed to map the file",
         (Ret 1, file))
      else
        match merge_sort fuel os 0 (file_size / 8) threshold file with
        | (Ret _, data) =>
            let unmap :=
              if munmap_rc sys =? 0 then []
              else ["Failed to unmap the file"] in
            if negb (close_rc sys =? 0) then
              (invalid ++ unmap ++ ["Failed to close the file"], (Ret 1, data))
            else (invalid ++ unmap, (Ret 0, data))
        | (Exited code msg, data) =>
            (invalid ++ ["Error: " +:+ msg], (Exited code msg, data))
        | (Aborted, data) => (invalid, (Aborted, data))
        | (Fault, data) => (invalid, (Fault, data))
        | (Timeout, data) => (invalid, (Timeout, data))
        end.

End Main.

(** * Vocabulary of the specifications *)

(** An array that fits the address space: its size in bytes is a [size_t]. *)
Definition valid_array (arr : list Z) : Prop :=
  Z.of_nat (length arr) * SIZEOF_INT64 < SIZE_MODULUS.

(** [arr[i] <= arr[i+1]] for every [i] in [begin, end_ - 1). *)
Definition ascending (arr : list Z) (begin end_ : Z) : Prop :=
  ∀ i, begin <= i → i + 1 < end_ →
    ∃ x y, load arr i = Some x ∧ load arr (i + 1) = Some y ∧ x <= y.

(** The array with its cells [begin, end_) replaced by [l]. *)
Definition replace_span (m : list Z) (begin end_ : Z) (l : list Z) : list Z :=
  take (Z.to_nat begin) m ++ l ++ drop (Z.to_nat end_) m.

(** An operating system that refuses nothing and sends no signal. *)
Definition no_faults : os_faults := {|
  fork_fails_left := false; fork_fails_right := false;
  signal_left := None; signal_right := None;
  waitpid_fails_left := false; waitpid_fails_right := false;
  malloc_fails := false
|}.

Definition healthy : env := λ _, no_faults.

(** Nothing is refused and nobody is signalled anywhere in the tree. *)
Definition healthy_env (os : env) : Prop := ∀ path, os path = no_faults.

(** No process of the tree is ended by a signal from outside. *)
Definition unsignalled (os : env) : Prop :=
  ∀ path, signal_left (os path) = None ∧ signal_right (os path) = None.

(** The right child of the root is killed; nothing else happens. *)
Definition killed_right : env := λ path,
  match path with
  | [] => {| fork_fails_left := false; fork_fails_right := false;
             signal_left := None; signal_right := Some SIGKILL;
             waitpid_fails_left := false; waitpid_fails_right := false;
             malloc_fails := false |}
  | _ => no_faults
  end.

(** A status for which the parent's wait returns when [waitpid] does. *)
Definition passes (status : Z) : Prop :=
  ∀ wf arr, wait_for_sort_process wf (Pid status) arr =
    if wf then (Exited 1 "Error: waitpid failure", arr) else (Ret tt, arr).

(** A status for which the parent's wait ends in a fatal error. *)
Definition fails (status : Z) : Prop :=
  ∀ wf arr, ∃ msg,
    wait_for_sort_process wf (Pid status) arr = (Exited 1 msg, arr).

(** The call was made with [fuel] and threshold [t] on the span [X] of the
    array [P ++ X ++ Q], and ended with the outcome [r] and the array
    [arr']. *)
Record sort_post (fuel : nat) (os : env) (t : Z) (P X Q : list Z)
    (r : res unit) (arr' : list Z) : Prop := {
  post_frame : ∃ X', arr' = P ++ X' ++ Q ∧ X' ≡ₚ X
                     ∧ (r = Ret tt → unsignalled os → Sorted i64_le X')
                     ∧ (Sorted i64_le X → X' = X);
  post_outcome : r = Ret tt ∨ r = Timeout ∨ ∃ msg, r = Exited 1 msg;
  post_timeout : r = Timeout →
    (t = 0 ∧ X ≠ []) ∨ Z.of_nat fuel <= Z.log2_up (Z.of_nat (length X));
  post_exited : (∃ msg, r = Exited 1 msg) → ¬ healthy_env os;
  post_ret : r = Ret tt → unsignalled os → 1 <= t ∨ X = []
}.

(** Two arrays hold the same [n] values in a span, one behind the cells
    [P] and before the cells [Q], the other behind [P2] and before [Q2]. *)
Definition same_span (n : nat) (P Q P2 Q2 : list Z) (m1 m2 : list Z) : Prop :=
  ∃ X, length X = n ∧ m1 = P ++ X ++ Q ∧ m2 = P2 ++ X ++ Q2.

(** Two runs end with the same outcome, in arrays that are related. *)
Definition lockstep {A} (R : list Z → list Z → Prop)
    (x y : res A * list Z) : Prop :=
  x.1 = y.1 ∧ R x.2 y.2.

(** An operating system that refuses the right child of the root its
    memory for the merge. *)
Definition starved_right : env := λ path,
  match path with
  | [true] => {| fork_fails_left := false; fork_fails_right := false;
                 signal_left := None; signal_right := None;
                 waitpid_fails_left := false; waitpid_fails_right := false;
                 malloc_fails := true |}
  | _ => no_faults
  end.

(** The file has the size [fstat] reports and is as long in words as that
    size is in bytes, divided by eight and rounded down. *)
Definition file_of (sys : os_calls) (file : list Z) : Prop :=
  0 <= st_size sys < 2 ^ 63 ∧ Z.of_nat (length file) = st_size sys / 8.

(** Everything before the sort went well. *)
Definition mapped (sys : os_calls) (argv : list string) : Prop :=
  length argv = 3%nat ∧ 0 <= open_fd sys ∧ fstat_rc sys = 0
  ∧ mmap_fails sys = false.

(** Whoever exits, exits through [fatal]: with status 1. *)
Definition exits_with_1 {A} (c : proc A) : Prop :=
  ∀ arr code msg arr', c arr = (Exited code msg, arr') → code = 1.

(** * Properties *)

(** ** compare_i64 and the order of the elements *)

Lemma compare_i64_le x y : compare_i64 x y <= 0 ↔ x <= y.
Proof. unfold compare_i64. repeat case_match; lia. Qed.

Lemma i64_le_le x y : i64_le x y ↔ x <= y.
Proof. apply compare_i64_le. Qed.

Lemma compare_i64_consistent : consistent compare_i64.
Proof.
  split.
  - intros x y. unfold compare_i64. repeat case_match; lia.
  - intros x y z. rewrite !compare_i64_le. lia.
Qed.

#[local] Instance i64_le_dec : RelDecision i64_le.
Proof. intros x y. unfold i64_le, cmp_le. apply Z_le_dec. Defined.

#[local] Instance i64_le_total : Total i64_le.
Proof. intros x y. rewrite !i64_le_le. lia. Qed.

#[local] Instance i64_le_trans : Transitive i64_le.
Proof. intros x y z. rewrite !i64_le_le. lia. Qed.

#[local] Instance i64_le_antisymm : AntiSymm eq i64_le.
Proof. intros x y. rewrite !i64_le_le. lia. Qed.

(** ** Straight insertion meets the contract of qsort *)

Lemma insert_by_Permutation cmp x l : insert_by cmp x l ≡ₚ x :: l.
Proof.
  induction l as [|y l IH]; simpl; [done|].
  case_match; [done|]. rewrite IH. apply Permutation_swap.
Qed.

Lemma insertion_sort_Permutation cmp l : insertion_sort cmp l ≡ₚ l.
Proof.
  induction l as [|x l IH]; simpl; [done|].
  by rewrite insert_by_Permutation, IH.
Qed.

Lemma consistent_total cmp x y :
  consistent cmp → ¬ cmp x y <= 0 → cmp y x <= 0.
Proof. intros [Ha _] Hn. specialize (Ha x y). lia. Qed.

Lemma insert_by_Sorted cmp x l :
  consistent cmp → Sorted (cmp_le cmp) l → Sorted (cmp_le cmp) (insert_by cmp x l).
Proof.
  intros Hc. induction 1 as [|y l Hs IH Hhd]; simpl.
  - repeat constructor.
  - destruct (Z.leb_spec (cmp x y) 0) as [Hxy|Hxy].
    + repeat constructor; done.
    + constructor; [done|].
      assert (cmp_le cmp y x) by (apply consistent_total; [done|lia]).
      destruct Hhd as [|z l Hyz]; simpl; [by constructor|].
      case_match; by constructor.
Qed.

Lemma insertion_sort_Sorted cmp l :
  consistent cmp → Sorted (cmp_le cmp) (insertion_sort cmp l).
Proof.
  intros Hc. induction l as [|x l IH]; simpl; [constructor|].
  by apply insert_by_Sorted.
Qed.

Definition insertion_libc : Libc := {|
  qsort := insertion_sort;
  qsort_Permutation cmp l _ := insertion_sort_Permutation cmp l;
  qsort_Sorted := insertion_sort_Sorted
|}.

(** ** Small runs *)

(** Eight elements, threshold 2: four leaves of two elements, three merges. *)
Example merge_sort_scenario :
  merge_sort (libc := insertion_libc) 3 healthy 0 8 2 [5; 3; 8; 1; 9; 2; 7; 4]
  = (Ret tt, [1; 2; 3; 4; 5; 7; 8; 9]).
Proof. vm_compute. reflexivity. Qed.

(** One level of recursion less and the leaves are not reached. *)
Example merge_sort_scenario_shallow :
  fst (merge_sort (libc := insertion_libc) 2 healthy 0 8 2
         [5; 3; 8; 1; 9; 2; 7; 4]) = Timeout.
Proof. vm_compute. reflexivity. Qed.

Example merge_in_isolation :
  merge [1; 4; 7; 2; 2; 9] 0 3 6 (fresh_buffer 48)
  = Some [Some 1; Some 2; Some 2; Some 4; Some 7; Some 9].
Proof. vm_compute. reflexivity. Qed.

(** A child that cannot fork makes its parent fail; the left half has been
    sorted by then. *)
Example merge_sort_fork_refused :
  merge_sort (libc := insertion_libc) 3
    (λ path, match path with
             | [true] => {| fork_fails_left := true; fork_fails_right := false;
                            signal_left := None; signal_right := None;
                            waitpid_fails_left := false;
                            waitpid_fails_right := false;
                            malloc_fails := false |}
             | _ => no_faults
             end)
    0 8 2 [5; 3; 8; 1; 9; 2; 7; 4]
  = (Exited 1 "Error: Child process exited with error",
     [1; 3; 5; 8; 9; 2; 7; 4]).
Proof. vm_compute. reflexivity. Qed.

(** ** Spans of an array *)

Lemma load_lookup {A} (m : list A) i : 0 <= i → load m i = m !! Z.to_nat i.
Proof. unfold load. intros. case_match; [done|lia]. Qed.

Lemma load_in_range {A} (m : list A) i :
  0 <= i < Z.of_nat (length m) → is_Some (load m i).
Proof.
  intros. rewrite load_lookup by lia. apply lookup_lt_is_Some. lia.
Qed.

Lemma store_in_range {A} (m : list A) i v :
  0 <= i < Z.of_nat (length m) → store m i v = Some (<[Z.to_nat i := v]> m).
Proof.
  intros. unfold store.
  destruct (Z.leb_spec 0 i), (Z.ltb_spec i (Z.of_nat (length m))); simpl; [done|lia..].
Qed.

Lemma span_length {A} (m : list A) b e :
  0 <= b → e <= Z.of_nat (length m) → length (span m b e) = Z.to_nat (e - b).
Proof. intros. unfold span. rewrite length_take, length_drop. lia. Qed.

Lemma span_nil {A} (m : list A) b e : e <= b → span m b e = [].
Proof. intros. unfold span. replace (Z.to_nat (e - b)) with 0%nat by lia. done. Qed.

Lemma span_cons {A} (m : list A) b e x :
  0 <= b < e → load m b = Some x → span m b e = x :: span m (b + 1) e.
Proof.
  intros Hb Hx. rewrite load_lookup in Hx by lia. unfold span.
  replace (Z.to_nat (e - b)) with (S (Z.to_nat (e - (b + 1)))) by lia.
  rewrite (drop_S _ _ _ Hx). simpl.
  by replace (Z.to_nat (b + 1)) with (S (Z.to_nat b)) by lia.
Qed.

Lemma span_app {A} (m : list A) b mid e :
  0 <= b <= mid → mid <= e → span m b e = span m b mid ++ span m mid e.
Proof.
  intros. unfold span.
  replace (Z.to_nat (e - b)) with (Z.to_nat (mid - b) + Z.to_nat (e - mid))%nat by lia.
  rewrite <- take_take_drop, drop_drop.
  by replace (Z.to_nat b + Z.to_nat (mid - b))%nat with (Z.to_nat mid) by lia.
Qed.

Lemma span_decompose {A} (m : list A) b e :
  0 <= b <= e → m = take (Z.to_nat b) m ++ span m b e ++ drop (Z.to_nat e) m.
Proof.
  intros. unfold span.
  replace (Z.to_nat e) with (Z.to_nat b + Z.to_nat (e - b))%nat by lia.
  by rewrite <- drop_drop, !take_drop.
Qed.

Lemma replace_span_length m b e l :
  0 <= b <= e → e <= Z.of_nat (length m) → length l = Z.to_nat (e - b) →
  length (replace_span m b e l) = length m.
Proof.
  intros. unfold replace_span.
  rewrite !length_app, length_take, length_drop. lia.
Qed.

Lemma replace_span_span m b e l :
  0 <= b <= e → e <= Z.of_nat (length m) → length l = Z.to_nat (e - b) →
  span (replace_span m b e l) b e = l.
Proof.
  intros. unfold replace_span, span.
  rewrite drop_app_length' by (rewrite length_take; lia).
  by rewrite take_app_length' by lia.
Qed.

Lemma replace_span_take m b e l :
  0 <= b → b <= Z.of_nat (length m) →
  take (Z.to_nat b) (replace_span m b e l) = take (Z.to_nat b) m.
Proof.
  intros. unfold replace_span.
  by rewrite take_app_length' by (rewrite length_take; lia).
Qed.

Lemma replace_span_drop m b e l :
  0 <= b <= e → e <= Z.of_nat (length m) → length l = Z.to_nat (e - b) →
  drop (Z.to_nat e) (replace_span m b e l) = drop (Z.to_nat e) m.
Proof.
  intros. unfold replace_span.
  rewrite app_assoc.
  by rewrite drop_app_length' by (rewrite length_app, length_take; lia).
Qed.

(** ** One turn of the merge loop *)

Lemma merge_loop_break arr endl endr l r d t :
  l >= endl → r >= endr → merge_loop arr endl endr l r d t = Some t.
Proof.
  intros. simp merge_loop.
  destruct (Z_ge_dec l endl), (Z_ge_dec r endr); simpl; [done|lia..].
Qed.

Lemma merge_loop_drain_right arr endl endr l r d t :
  l >= endl → r < endr →
  merge_loop arr endl endr l r d t =
    t' ← copy_elem arr r t d; merge_loop arr endl endr l (r + 1) (d + 1) t'.
Proof.
  intros. simp merge_loop.
  destruct (Z_ge_dec l endl), (Z_ge_dec r endr); simpl; try lia.
  by destruct (copy_elem _ _ _ _).
Qed.

Lemma merge_loop_drain_left arr endl endr l r d t :
  l < endl → r >= endr →
  merge_loop arr endl endr l r d t =
    t' ← copy_elem arr l t d; merge_loop arr endl endr (l + 1) r (d + 1) t'.
Proof.
  intros. simp merge_loop.
  destruct (Z_ge_dec l endl), (Z_ge_dec r endr); simpl; try lia.
  by destruct (copy_elem _ _ _ _).
Qed.

Lemma merge_loop_compare arr endl endr l r d t x y :
  l < endl → r < endr → load arr l = Some x → load arr r = Some y →
  merge_loop arr endl endr l r d t =
    if compare_i64 x y <=? 0
    then t' ← copy_elem arr l t d; merge_loop arr endl endr (l + 1) r (d + 1) t'
    else t' ← copy_elem arr r t d; merge_loop arr endl endr l (r + 1) (d + 1) t'.
Proof.
  intros ?? Hx Hy. simp merge_loop.
  destruct (Z_ge_dec l endl), (Z_ge_dec r endr); simpl; try lia.
  rewrite Hx, Hy. case_match; by destruct (copy_elem _ _ _ _).
Qed.

Lemma copy_elem_in_range arr src t d x :
  load arr src = Some x → 0 <= d < Z.of_nat (length t) →
  copy_elem arr src t d = Some (<[Z.to_nat d := Some x]> t).
Proof.
  intros Hx ?. unfold copy_elem. rewrite Hx. simpl. by apply store_in_range.
Qed.

(** ** The merge loop computes the merge of the two halves *)

Lemma take_S_insert {A} (t : list A) d v :
  (d < length t)%nat → take (S d) (<[d := v]> t) = take d t ++ [v].
Proof.
  intros. erewrite take_S_r by (by apply list_lookup_insert_eq).
  by rewrite take_insert_ge by lia.
Qed.

Lemma merge_loop_spec arr endl endr n : ∀ l r d t,
  n = (Z.to_nat (endl - l) + Z.to_nat (endr - r))%nat →
  0 <= l → 0 <= r →
  endl <= Z.of_nat (length arr) → endr <= Z.of_nat (length arr) →
  0 <= d → d + Z.of_nat n <= Z.of_nat (length t) →
  merge_loop arr endl endr l r d t =
    Some (take (Z.to_nat d) t
          ++ (Some <$> list_merge i64_le (span arr l endl) (span arr r endr))
          ++ drop (Z.to_nat d + n) t).
Proof.
  induction n as [|n IH]; intros l r d t Hn Hl Hr Hel Her Hd Ht.
  - rewrite merge_loop_break by lia.
    rewrite !span_nil by lia. simpl.
    by rewrite Nat.add_0_r, take_drop.
  - assert (Hstep : ∀ x t', t' = <[Z.to_nat d := Some x]> t →
        take (Z.to_nat (d + 1)) t' = take (Z.to_nat d) t ++ [Some x] ∧
        drop (Z.to_nat (d + 1) + n) t' = drop (Z.to_nat d + S n) t ∧
        d + 1 + Z.of_nat n <= Z.of_nat (length t')).
    { intros x t' ->. rewrite length_insert. split_and!; [| |lia].
      - replace (Z.to_nat (d + 1)) with (S (Z.to_nat d)) by lia.
        apply take_S_insert. lia.
      - rewrite drop_insert_lt by lia. f_equal. lia. }
    destruct (Z_ge_dec l endl) as [Hle|Hle], (Z_ge_dec r endr) as [Hre|Hre];
      [lia| | |].
    + destruct (load_in_range arr r) as [y Hy]; [lia|].
      rewrite merge_loop_drain_right by lia.
      rewrite (copy_elem_in_range _ _ _ _ y) by (done || lia). simpl.
      destruct (Hstep y _ eq_refl) as (Ht1 & Ht2 & Ht3).
      rewrite (IH l (r + 1)) by lia.
      rewrite Ht1, Ht2, (span_nil _ l) by lia.
      rewrite (span_cons _ r _ y) by (done || lia).
      rewrite !list_merge_nil_l. simpl. by rewrite <- app_assoc.
    + destruct (load_in_range arr l) as [x Hx]; [lia|].
      rewrite merge_loop_drain_left by lia.
      rewrite (copy_elem_in_range _ _ _ _ x) by (done || lia). simpl.
      destruct (Hstep x _ eq_refl) as (Ht1 & Ht2 & Ht3).
      rewrite (IH (l + 1) r) by lia.
      rewrite Ht1, Ht2, (span_nil _ r) by lia.
      rewrite (span_cons _ l _ x) by (done || lia).
      rewrite !list_merge_nil_r. simpl. by rewrite <- app_assoc.
    + destruct (load_in_range arr l) as [x Hx]; [lia|].
      destruct (load_in_range arr r) as [y Hy]; [lia|].
      rewrite (merge_loop_compare _ _ _ _ _ _ _ x y) by (done || lia).
      rewrite (span_cons _ l _ x), (span_cons _ r _ y) by (done || lia).
      rewrite list_merge_cons.
      destruct (Z.leb_spec (compare_i64 x y) 0) as [Hc|Hc].
      * rewrite decide_True by done.
        rewrite (copy_elem_in_range _ _ _ _ x) by (done || lia). simpl.
        destruct (Hstep x _ eq_refl) as (Ht1 & Ht2 & Ht3).
        rewrite (IH (l + 1) r) by lia.
        rewrite Ht1, Ht2, <- (span_cons _ r _ y) by (done || lia).
        by rewrite <- app_assoc.
      * rewrite decide_False by (unfold i64_le, cmp_le; lia).
        rewrite (copy_elem_in_range _ _ _ _ y) by (done || lia). simpl.
        destruct (Hstep y _ eq_refl) as (Ht1 & Ht2 & Ht3).
        rewrite (IH l (r + 1)) by lia.
        rewrite Ht1, Ht2, <- (span_cons _ l _ x) by (done || lia).
        by rewrite <- app_assoc.
Qed.

(** ** The copy back *)

Lemma copy_back_done temp b size i arr :
  ¬ i < size → copy_back temp b size i arr = Some arr.
Proof.
  intros. simp copy_back. destruct (Z_lt_dec i size); simpl; [lia|done].
Qed.

Lemma copy_back_step temp b size i arr v :
  i < size → load temp i = Some (Some v) →
  copy_back temp b size i arr =
    arr' ← store arr (size_add b i) v; copy_back temp b size (i + 1) arr'.
Proof.
  intros ? Hv. simp copy_back. destruct (Z_lt_dec i size); simpl; [|lia].
  rewrite Hv. by destruct (store _ _ _).
Qed.

Lemma copy_back_spec temp b size vs : ∀ i arr pre post,
  temp = pre ++ (Some <$> vs) ++ post →
  0 <= i → length pre = Z.to_nat i → size = i + Z.of_nat (length vs) →
  0 <= b → b + size <= Z.of_nat (length arr) → b + size <= SIZE_MODULUS →
  copy_back temp b size i arr =
    Some (take (Z.to_nat (b + i)) arr ++ vs ++ drop (Z.to_nat (b + size)) arr).
Proof.
  induction vs as [|v vs IH]; intros i arr pre post Ht Hi Hpre Hsz Hb Hlen Hmod.
  - simpl in *. rewrite copy_back_done by lia.
    replace (b + size) with (b + i) by lia. by rewrite take_drop.
  - simpl in Hsz.
    rewrite (copy_back_step _ _ _ _ _ v); [|lia|].
    2:{ rewrite load_lookup, Ht by lia. simpl.
        rewrite lookup_app_r by lia.
        by replace (Z.to_nat i - length pre)%nat with 0%nat by lia. }
    unfold size_add. rewrite Z.mod_small by (unfold SIZE_MODULUS in *; lia).
    rewrite store_in_range by lia. simpl.
    rewrite (IH (i + 1) _ (pre ++ [Some v]) post);
      [|by rewrite Ht, <- app_assoc|lia|rewrite length_app; simpl; lia|lia|lia
       |rewrite length_insert; lia|lia].
    replace (Z.to_nat (b + (i + 1))) with (S (Z.to_nat (b + i))) by lia.
    rewrite take_S_insert by lia.
    rewrite drop_insert_lt by lia.
    by rewrite <- app_assoc.
Qed.

(** ** A span in the middle of an array *)

Lemma span_middle {A} (P X Q : list A) b e :
  b = Z.of_nat (length P) → e = b + Z.of_nat (length X) →
  span (P ++ X ++ Q) b e = X.
Proof.
  intros -> ->. unfold span.
  rewrite drop_app_length' by lia.
  by rewrite take_app_length' by lia.
Qed.

Lemma take_middle {A} (P X : list A) b :
  b = Z.of_nat (length P) → take (Z.to_nat b) (P ++ X) = P.
Proof. intros ->. by rewrite take_app_length' by lia. Qed.

Lemma drop_middle {A} (P X Q : list A) e :
  e = Z.of_nat (length P) + Z.of_nat (length X) →
  drop (Z.to_nat e) (P ++ X ++ Q) = Q.
Proof.
  intros ->. rewrite app_assoc.
  by rewrite drop_app_length' by (rewrite length_app; lia).
Qed.

Lemma list_merge_length l1 l2 :
  length (list_merge i64_le l1 l2) = (length l1 + length l2)%nat.
Proof. by rewrite merge_Permutation, length_app. Qed.

Section Correctness.
Context {libc : Libc}.

Lemma qsort_length l : length (qsort compare_i64 l) = length l.
Proof. by rewrite (qsort_Permutation _ _ compare_i64_consistent). Qed.

Lemma seq_sort_middle P X Q b e :
  b = Z.of_nat (length P) → e = b + Z.of_nat (length X) →
  valid_array (P ++ X ++ Q) →
  seq_sort b e (P ++ X ++ Q) = (Ret tt, P ++ qsort compare_i64 X ++ Q).
Proof.
  intros Hb He Hv. unfold seq_sort, valid_array, SIZEOF_INT64 in *.
  rewrite !length_app in *.
  assert (size_sub e b = Z.of_nat (length X)) as ->.
  { unfold size_sub. replace (e - b) with (Z.of_nat (length X)) by lia.
    apply Z.mod_small. lia. }
  rewrite <- He.
  destruct (Z.leb_spec 0 b); [|lia].
  destruct (Z.leb_spec e (Z.of_nat (length P + (length X + length Q)))); [|lia].
  simpl. rewrite (span_middle P X Q) by done.
  rewrite take_middle by done.
  by rewrite drop_middle by lia.
Qed.

Lemma merge_halves_middle P L R Q b mid e :
  b = Z.of_nat (length P) → mid = b + Z.of_nat (length L) →
  e = mid + Z.of_nat (length R) →
  valid_array (P ++ L ++ R ++ Q) →
  merge_halves false b mid e (e - b) (P ++ L ++ R ++ Q)
  = (Ret tt, P ++ list_merge i64_le L R ++ Q).
Proof.
  intros Hb Hmid He Hv. unfold merge_halves, valid_array, SIZEOF_INT64 in *.
  rewrite !length_app in Hv.
  set (arr := P ++ L ++ R ++ Q).
  assert (Hlen : length arr = (length P + (length L + (length R + length Q)))%nat)
    by (unfold arr; by rewrite !length_app).
  assert (fresh_buffer (size_mul (e - b) 8) = replicate (Z.to_nat (e - b)) None) as ->.
  { unfold fresh_buffer, size_mul, SIZEOF_INT64. rewrite Z.mod_small by lia.
    by rewrite Z.div_mul by lia. }
  unfold merge.
  rewrite (merge_loop_spec _ _ _ (Z.to_nat (e - b)));
    [|lia..|rewrite length_replicate; lia].
  simpl. rewrite drop_ge by (rewrite length_replicate; lia).
  assert (span arr b mid = L) as ->.
  { unfold arr. by apply span_middle. }
  assert (span arr mid e = R) as ->.
  { unfold arr. rewrite (app_assoc P L). apply span_middle; [|done].
    rewrite length_app. lia. }
  rewrite (copy_back_spec _ _ _ (list_merge i64_le L R) 0 arr [] []);
    [|by rewrite app_nil_r|lia|done|rewrite list_merge_length; lia|lia|lia|lia].
  f_equal. f_equal.
  - rewrite Z.add_0_r. unfold arr. by apply take_middle.
  - f_equal. replace (b + (e - b)) with e by lia.
    unfold arr. rewrite (app_assoc L R).
    apply drop_middle. rewrite length_app. lia.
Qed.

(** ** Unfolding merge_sort by one call *)

Lemma size_sub_small b e : b <= e → e - b < SIZE_MODULUS → size_sub e b = e - b.
Proof. intros. unfold size_sub. apply Z.mod_small. lia. Qed.

Lemma merge_sort_fails_assert fuel os b e t arr :
  e < b → merge_sort (S fuel) os b e t arr = (Aborted, arr).
Proof.
  intros. simpl. unfold bind, c_assert.
  destruct (Z.geb_spec e b); [lia|done].
Qed.

Lemma merge_sort_seq fuel os b e t arr :
  b <= e → e - b < SIZE_MODULUS → e - b <= t →
  merge_sort (S fuel) os b e t arr = seq_sort b e arr.
Proof.
  intros. simpl. unfold bind at 1, c_assert.
  destruct (Z.geb_spec e b); [|lia]. simpl.
  rewrite size_sub_small by lia.
  destruct (Z.leb_spec (e - b) t); [done|lia].
Qed.

Lemma merge_sort_split fuel os b e t arr :
  0 <= b <= e → e < SIZE_MODULUS → t < e - b →
  merge_sort (S fuel) os b e t arr =
    (let mid := b + (e - b) / 2 in
     let* left_pid :=
       create_sort_process (merge_sort fuel (child_env false os))
         (fork_fails_left (os [])) (signal_left (os [])) b mid t in
     let* right_pid :=
       create_sort_process (merge_sort fuel (child_env true os))
         (fork_fails_right (os [])) (signal_right (os [])) mid e t in
     let* _ := wait_for_sort_process (waitpid_fails_left (os [])) left_pid in
     let* _ := wait_for_sort_process (waitpid_fails_right (os [])) right_pid in
     merge_halves (malloc_fails (os [])) b mid e (e - b)) arr.
Proof.
  intros. simpl. unfold bind at 1, c_assert.
  destruct (Z.geb_spec e b); [|lia]. simpl.
  rewrite size_sub_small by lia.
  destruct (Z.leb_spec (e - b) t); [lia|].
  unfold size_add. rewrite (Z.mod_small (b + _)); [done|].
  assert (0 <= (e - b) / 2 <= e - b); [|lia].
  split; [apply Z.div_pos; lia|]. apply Z.div_le_upper_bound; lia.
Qed.

(** ** What one call of merge_sort does to its span *)

Lemma healthy_child right_child os :
  healthy_env os → healthy_env (child_env right_child os).
Proof. intros Hos path. apply Hos. Qed.

Lemma healthy_unsignalled os : healthy_env os → unsignalled os.
Proof. intros Hos path. by rewrite (Hos path). Qed.

Lemma unsignalled_child right_child os :
  unsignalled os → unsignalled (child_env right_child os).
Proof. intros Hos path. apply Hos. Qed.

Lemma wait_for_exit_0 : passes (W_EXITCODE 0 0).
Proof. intros wf arr. by destruct wf. Qed.

Lemma wait_for_signalled s : passes (W_EXITCODE 0 (signo s)).
Proof. intros wf arr. by destruct wf, s. Qed.

Lemma wait_for_exit_1 : fails (W_EXITCODE (Z.land 1 255) 0).
Proof. intros wf arr. destruct wf; eexists; reflexivity. Qed.

Lemma unhealthy_root os :
  fork_fails_left (os []) = true ∨ fork_fails_right (os []) = true
  ∨ waitpid_fails_left (os []) = true ∨ waitpid_fails_right (os []) = true
  ∨ malloc_fails (os []) = true →
  ¬ healthy_env os.
Proof.
  intros Hf Hos. rewrite (Hos []) in Hf. simpl in Hf.
  by repeat destruct Hf as [Hf|Hf].
Qed.

Lemma unhealthy_child right_child os :
  ¬ healthy_env (child_env right_child os) → ¬ healthy_env os.
Proof. intros Hc Hos. by apply Hc, healthy_child. Qed.

(** Halving a span of at least two cells, rounding up, takes one from
    the number of halvings that are left. *)
Lemma log2_up_half n c :
  2 <= n → 0 <= c → 2 * c <= n + 1 → Z.log2_up c + 1 <= Z.log2_up n.
Proof.
  intros Hn Hc Hcn.
  assert (Hk : 0 < Z.log2_up n) by (apply Z.log2_up_pos; lia).
  destruct (Z_le_dec c 1) as [Hc1|Hc1].
  { rewrite (Z.log2_up_eqn0 c) by lia. lia. }
  destruct (Z.log2_up_spec n) as [_ Hpow]; [lia|].
  replace (Z.log2_up n) with (Z.succ (Z.log2_up n - 1)) in Hpow by lia.
  rewrite Z.pow_succ_r in Hpow by lia.
  assert (Z.log2_up c <= Z.log2_up n - 1); [|lia].
  apply Z.log2_up_le_pow2; lia.
Qed.

Lemma halves_lengths (X : list Z) t :
  t < Z.of_nat (length X) → 0 <= t →
  let k := Z.to_nat (Z.of_nat (length X) / 2) in
  Z.of_nat (length (take k X)) = Z.of_nat (length X) / 2
  ∧ Z.of_nat (length (drop k X)) = Z.of_nat (length X) - Z.of_nat (length X) / 2
  ∧ (length (take k X) < length X)%nat
  ∧ (0 < length (drop k X))%nat
  ∧ (1 <= t → (length (drop k X) < length X)%nat)
  ∧ 2 * Z.of_nat (length (take k X)) <= Z.of_nat (length X) + 1
  ∧ 2 * Z.of_nat (length (drop k X)) <= Z.of_nat (length X) + 1.
Proof.
  intros Hlt Ht k.
  assert (0 <= Z.of_nat (length X) / 2) by (apply Z.div_pos; lia).
  assert (2 * (Z.of_nat (length X) / 2) <= Z.of_nat (length X))
    by (apply Z.mul_div_le; lia).
  assert (Z.of_nat (length X) < 2 * (Z.of_nat (length X) / 2) + 2).
  { pose proof (Z.mod_pos_bound (Z.of_nat (length X)) 2).
    pose proof (Z.div_mod (Z.of_nat (length X)) 2). lia. }
  rewrite length_take, length_drop. subst k. lia.
Qed.

(** A sorted rearrangement of a list of integers is unique. *)
Lemma sorted_unique (l1 l2 : list Z) :
  Sorted i64_le l1 → Sorted i64_le l2 → l1 ≡ₚ l2 → l1 = l2.
Proof. apply (Sorted_unique i64_le). Qed.

Lemma Sorted_app_halves (l1 l2 : list Z) :
  Sorted i64_le (l1 ++ l2) → Sorted i64_le l1 ∧ Sorted i64_le l2.
Proof.
  intros Hs. apply Sorted_StronglySorted in Hs; [|apply _].
  split; apply StronglySorted_Sorted.
  - by apply StronglySorted_app_1_l in Hs.
  - by apply StronglySorted_app_1_r in Hs.
Qed.

(** Merging the two halves of an ascending list gives the list back. *)
Lemma list_merge_ascending (l1 l2 : list Z) :
  Sorted i64_le (l1 ++ l2) → list_merge i64_le l1 l2 = l1 ++ l2.
Proof.
  intros Hs. destruct (Sorted_app_halves _ _ Hs).
  apply sorted_unique; [|done|apply merge_Permutation].
  by apply Sorted_list_merge; [apply _|..].
Qed.

Ltac outcome :=
  solve [ repeat match goal with
          | |- _ → _ => intro
          | H : ∃ _, _ |- _ => destruct H
          | H : _ ∨ _ |- _ => destruct H
          end; first [discriminate | congruence | eauto] ].

Lemma sort_post_stopped fuel os t P X Q X' r :
  X' ≡ₚ X → (Sorted i64_le X → X' = X) →
  r = Timeout ∨ (∃ msg, r = Exited 1 msg) →
  (r = Timeout →
     (t = 0 ∧ X ≠ []) ∨ Z.of_nat fuel <= Z.log2_up (Z.of_nat (length X))) →
  ((∃ msg, r = Exited 1 msg) → ¬ healthy_env os) →
  sort_post fuel os t P X Q r (P ++ X' ++ Q).
Proof.
  intros HX' Hkept Hr Ht He. split; [|outcome..].
  exists X'. split_and!; [done|done|outcome|done].
Qed.

(** What the parent has after the creation of a child whose [merge_sort]
    does to its span what [sort_post] says. *)
Lemma create_sort_process_post fuel os ff sg t P X Q b e r arr' :
  (∀ r arr', merge_sort fuel os b e t (P ++ X ++ Q) = (r, arr') →
     sort_post fuel os t P X Q r arr') →
  create_sort_process (merge_sort fuel os) ff sg b e t (P ++ X ++ Q)
  = (r, arr') →
  ∃ X', arr' = P ++ X' ++ Q ∧ X' ≡ₚ X ∧ (Sorted i64_le X → X' = X)
    ∧ ((r = Timeout
        ∧ ((t = 0 ∧ X ≠ [])
           ∨ Z.of_nat fuel <= Z.log2_up (Z.of_nat (length X))))
       ∨ (∃ msg, r = Exited 1 msg ∧ ff = true)
       ∨ (∃ status, r = Ret (Pid status) ∧ ff = false
            ∧ ((passes status
                ∧ (sg = None → unsignalled os →
                   Sorted i64_le X' ∧ (1 <= t ∨ X = [])))
               ∨ (fails status ∧ ¬ healthy_env os)))).
Proof.
  intros Hsort. unfold create_sort_process.
  destruct ff.
  { intros [= <- <-]. exists X. split_and!; [done..|]. right. left. eauto. }
  destruct sg as [s|].
  { intros [= <- <-]. exists X. split_and!; [done..|]. right. right.
    eexists. split_and!; [done..|]. left. split; [apply wait_for_signalled|].
    done. }
  destruct (merge_sort fuel os b e t (P ++ X ++ Q)) as [rc arr1].
  destruct (Hsort _ _ eq_refl) as [(X' & -> & Hp & Hs & Hk) Ho Hto Hex Hret].
  intros Hc. exists X'.
  destruct Ho as [->|[->|[msg ->]]]; simpl in Hc; injection Hc as <- <-;
    (split_and!; [done..|]).
  - right. right. eexists. split_and!; [done..|]. left.
    split; [apply wait_for_exit_0|]. auto.
  - left. auto.
  - right. right. eexists. split_and!; [done..|]. right.
    split; [apply wait_for_exit_1|]. eauto.
Qed.

Lemma merge_sort_post fuel : ∀ os t P X Q b e r arr',
  b = Z.of_nat (length P) → e = b + Z.of_nat (length X) →
  valid_array (P ++ X ++ Q) → 0 <= t →
  merge_sort fuel os b e t (P ++ X ++ Q) = (r, arr') →
  sort_post fuel os t P X Q r arr'.
Proof.
  induction fuel as [|fuel IH]; intros os t P X Q b e r arr' Hb He Hv Ht Hrun.
  { injection Hrun as <- <-.
    apply sort_post_stopped; [done|done|by left| |outcome].
    intros _. right. apply Z.log2_up_nonneg. }
  assert (Hmod : e < SIZE_MODULUS).
  { unfold valid_array, SIZEOF_INT64 in Hv. rewrite !length_app in Hv. lia. }
  destruct (Z_le_dec (e - b) t) as [Hsz|Hsz].
  { rewrite merge_sort_seq, (seq_sort_middle P X Q) in Hrun by (done || lia).
    injection Hrun as <- <-.
    split; [|try outcome..].
    - eexists; split_and!;
        [done|by apply qsort_Permutation, compare_i64_consistent| |].
      + intros _ _. apply qsort_Sorted, compare_i64_consistent.
      + intros HsX. apply sorted_unique; [|done|].
        * apply qsort_Sorted, compare_i64_consistent.
        * apply qsort_Permutation, compare_i64_consistent.
    - intros _ _. destruct (decide (1 <= t)); [by left|right].
      apply nil_length_inv. lia. }
  rewrite merge_sort_split in Hrun by lia. cbv zeta in Hrun.
  replace (e - b) with (Z.of_nat (length X)) in * by lia.
  destruct (halves_lengths X t)
    as (HlenL & HlenR & HltL & HposR & HltR & HhalfL & HhalfR); [lia..|].
  set (k := Z.to_nat (Z.of_nat (length X) / 2)) in *.
  set (L := take k X) in *. set (R := drop k X) in *.
  assert (HX : X = L ++ R) by (symmetry; apply take_drop).
  assert (HlenX : length X = (length L + length R)%nat)
    by (by rewrite HX, length_app).
  assert (Harr : P ++ X ++ Q = P ++ L ++ R ++ Q)
    by (by rewrite HX at 1; rewrite <- app_assoc).
  rewrite Harr in Hrun, Hv.
  assert (HXne : X ≠ []) by (intros HX0; rewrite HX0 in *; simpl in *; lia).
  assert (Hdeeper : ∀ Y : list Z,
    2 * Z.of_nat (length Y) <= Z.of_nat (length X) + 1 →
    (t = 0 ∧ Y ≠ []) ∨ Z.of_nat fuel <= Z.log2_up (Z.of_nat (length Y)) →
    (t = 0 ∧ X ≠ []) ∨ Z.of_nat (S fuel) <= Z.log2_up (Z.of_nat (length X))).
  { intros Y HY [[? _]|Hfuel]; [by left|].
    destruct (decide (2 <= Z.of_nat (length X))) as [HX2|HX2].
    - right. pose proof (log2_up_half _ _ HX2 (Nat2Z.is_nonneg (length Y)) HY).
      lia.
    - left. split; [lia|done]. }
  assert (Hkept : ∀ L1 R1, (Sorted i64_le L → L1 = L) →
    (Sorted i64_le R → R1 = R) → Sorted i64_le X → L1 ++ R1 = X).
  { intros L1 R1 H1 H2 Hs. rewrite HX in Hs.
    destruct (Sorted_app_halves _ _ Hs). by rewrite H1, H2. }
  (* the left child *)
  unfold bind at 1 in Hrun.
  destruct (create_sort_process _ (fork_fails_left (os [])) _ b _ t _)
    as [rl arr1] eqn:Hleft.
  apply (create_sort_process_post _ _ _ _ _ P L (R ++ Q)) in Hleft
    as (L' & -> & HpL & HkL & HL);
    [|intros r0 a0; apply IH; [lia..|done|done]].
  assert (HlenL' : length L' = length L) by (by rewrite HpL).
  assert (HpLR : L' ++ R ≡ₚ X) by (by rewrite HX, HpL).
  rewrite (app_assoc L' R Q) in Hrun.
  destruct HL as [[-> HtL]|[(msg & -> & Hff)|(stl & -> & Hffl & HL)]].
  { injection Hrun as <- <-.
    apply sort_post_stopped; [done|by apply Hkept|outcome| |outcome].
    intros _. by apply (Hdeeper L). }
  { injection Hrun as <- <-.
    apply sort_post_stopped; [done|by apply Hkept|outcome|outcome|].
    intros _. apply unhealthy_root. auto. }
  (* the right child *)
  rewrite <- (app_assoc L' R Q), (app_assoc P L') in Hrun.
  unfold bind at 1 in Hrun.
  destruct (create_sort_process _ (fork_fails_right (os [])) _ _ e t _)
    as [rr arr2] eqn:Hright.
  apply (create_sort_process_post _ _ _ _ _ (P ++ L') R Q) in Hright
    as (R' & -> & HpR & HkR & HR);
    [|intros r0 a0; apply IH;
      [rewrite length_app; lia|lia
      |unfold valid_array in *; rewrite !length_app in *; lia|done]].
  rewrite <- (app_assoc P L'), (app_assoc L' R' Q) in Hrun.
  assert (HlenR' : length R' = length R) by (by rewrite HpR).
  assert (HpLR' : L' ++ R' ≡ₚ X) by (by rewrite HX, HpL, HpR).
  destruct HR as [[-> HtR]|[(msg & -> & Hff)|(str & -> & Hffr & HR)]].
  { injection Hrun as <- <-.
    apply sort_post_stopped; [done|by apply Hkept|outcome| |outcome].
    intros _. by apply (Hdeeper R). }
  { injection Hrun as <- <-.
    apply sort_post_stopped; [done|by apply Hkept|outcome|outcome|].
    intros _. apply unhealthy_root. auto. }
  (* waiting for the left child *)
  unfold bind at 1 in Hrun.
  destruct HL as [[Hwl HL]|[Hwl HL]]; cycle 1.
  { destruct (Hwl (waitpid_fails_left (os [])) (P ++ (L' ++ R') ++ Q))
      as [msg Hw].
    rewrite Hw in Hrun. injection Hrun as <- <-.
    apply sort_post_stopped; [done|by apply Hkept|outcome|outcome|].
    intros _. by apply (unhealthy_child false). }
  rewrite Hwl in Hrun.
  destruct (waitpid_fails_left (os [])) eqn:Hwfl.
  { injection Hrun as <- <-.
    apply sort_post_stopped; [done|by apply Hkept|outcome|outcome|].
    intros _. apply unhealthy_root. auto. }
  (* waiting for the right child *)
  unfold bind at 1 in Hrun.
  destruct HR as [[Hwr HR]|[Hwr HR]]; cycle 1.
  { destruct (Hwr (waitpid_fails_right (os [])) (P ++ (L' ++ R') ++ Q))
      as [msg Hw].
    rewrite Hw in Hrun. injection Hrun as <- <-.
    apply sort_post_stopped; [done|by apply Hkept|outcome|outcome|].
    intros _. by apply (unhealthy_child true). }
  rewrite Hwr in Hrun.
  destruct (waitpid_fails_right (os [])) eqn:Hwfr.
  { injection Hrun as <- <-.
    apply sort_post_stopped; [done|by apply Hkept|outcome|outcome|].
    intros _. apply unhealthy_root. auto. }
  (* the merge *)
  destruct (malloc_fails (os [])) eqn:Hmf.
  { injection Hrun as <- <-.
    apply sort_post_stopped; [done|by apply Hkept|outcome|outcome|].
    intros _. apply unhealthy_root. auto 6. }
  rewrite <- (app_assoc L' R' Q) in Hrun.
  replace (Z.of_nat (length X)) with (e - b) in Hrun at 2 by lia.
  rewrite (merge_halves_middle P L' R' Q) in Hrun;
    [|lia..|unfold valid_array in *; rewrite !length_app in *; lia].
  injection Hrun as <- <-. split; [|try outcome..].
  - exists (list_merge i64_le L' R'). split_and!; [done| | |].
    + by rewrite merge_Permutation.
    + intros _ Hos. destruct (Hos []) as [Hsl Hsr].
      destruct (HL Hsl (unsignalled_child false os Hos)) as [HsL _].
      destruct (HR Hsr (unsignalled_child true os Hos)) as [HsR _].
      by apply Sorted_list_merge; [apply _|..].
    + intros Hs. rewrite <- (Hkept L' R' HkL HkR Hs) in Hs |- *.
      by apply list_merge_ascending.
  - intros _ Hos. destruct (Hos []) as [_ Hsr].
    destruct (HR Hsr (unsignalled_child true os Hos)) as [_ [?|HR0]];
      [by left|].
    rewrite HR0 in HposR. simpl in HposR. lia.
Qed.

(** ** From the decomposition of the array to indices *)

Lemma Sorted_lookup (l : list Z) :
  Sorted i64_le l ↔
  ∀ i x y, l !! i = Some x → l !! S i = Some y → x <= y.
Proof.
  split.
  - induction 1 as [|a l Hs IH Hhd]; intros i x y Hx Hy; [done|].
    destruct i as [|i]; simpl in *.
    + injection Hx as ->. destruct Hhd as [|b l Hab]; [done|].
      injection Hy as ->. by apply i64_le_le.
    + eauto.
  - induction l as [|a l IH]; intros Hl; [constructor|].
    constructor.
    + apply IH. intros i x y Hx Hy. apply (Hl (S i)); done.
    + destruct l as [|b l]; constructor.
      apply i64_le_le. by apply (Hl 0%nat).
Qed.

Lemma span_lookup {A} (m : list A) b e (i : nat) :
  0 <= b → Z.of_nat i < e - b → span m b e !! i = load m (b + Z.of_nat i).
Proof.
  intros. unfold span. rewrite lookup_take_lt by lia.
  rewrite lookup_drop, load_lookup by lia. f_equal. lia.
Qed.

Lemma ascending_Sorted arr b e :
  0 <= b → e <= Z.of_nat (length arr) →
  ascending arr b e ↔ Sorted i64_le (span arr b e).
Proof.
  intros Hb He. rewrite Sorted_lookup. split.
  - intros Hasc i x y Hx Hy.
    assert (Z.of_nat (S i) < e - b).
    { apply lookup_lt_Some in Hy. rewrite span_length in Hy by lia. lia. }
    rewrite span_lookup in Hx, Hy by lia.
    destruct (Hasc (b + Z.of_nat i)) as (x' & y' & Hx' & Hy' & Hle); [lia..|].
    replace (b + Z.of_nat (S i)) with (b + Z.of_nat i + 1) in Hy by lia.
    congruence.
  - intros Hs i Hbi Hie.
    destruct (load_in_range arr i) as [x Hx]; [lia|].
    destruct (load_in_range arr (i + 1)) as [y Hy]; [lia|].
    exists x, y. split_and!; [done..|].
    apply (Hs (Z.to_nat (i - b))); rewrite span_lookup by lia.
    + rewrite <- Hx. f_equal. lia.
    + rewrite <- Hy. f_equal. lia.
Qed.

Lemma load_outside_middle (P X X' Q : list Z) b e i :
  b = Z.of_nat (length P) → e = b + Z.of_nat (length X) →
  length X' = length X → i < b ∨ e <= i →
  load (P ++ X' ++ Q) i = load (P ++ X ++ Q) i.
Proof.
  intros -> -> Hlen Hi. unfold load. case_match; [|done].
  destruct Hi as [Hi|Hi].
  - by rewrite !lookup_app_l by lia.
  - rewrite !lookup_app_r by lia. by rewrite Hlen.
Qed.

(** The array as it is at a call on [begin, end_): the cells before the
    span, the span, the cells behind it. *)
Lemma merge_sort_spec fuel os b e t arr r arr' :
  0 <= b <= e → e <= Z.of_nat (length arr) → valid_array arr → 0 <= t →
  merge_sort fuel os b e t arr = (r, arr') →
  sort_post fuel os t
    (take (Z.to_nat b) arr) (span arr b e) (drop (Z.to_nat e) arr) r arr'.
Proof.
  intros Hb He Hv Ht Hrun.
  apply (merge_sort_post fuel os t _ _ _ b e);
    try (rewrite <- (span_decompose arr b e) by lia); try done.
  - rewrite length_take. lia.
  - rewrite span_length by lia. lia.
Qed.

(** The same in terms of indices. *)
Lemma merge_sort_effect fuel os b e t arr r arr' :
  0 <= b <= e → e <= Z.of_nat (length arr) → valid_array arr → 0 <= t →
  merge_sort fuel os b e t arr = (r, arr') →
  length arr' = length arr
  ∧ (∀ i, i < b ∨ e <= i → load arr' i = load arr i)
  ∧ span arr' b e ≡ₚ span arr b e
  ∧ (r = Ret tt → unsignalled os → Sorted i64_le (span arr' b e))
  ∧ (Sorted i64_le (span arr b e) → arr' = arr).
Proof.
  intros Hb He Hv Ht Hrun.
  destruct (merge_sort_spec _ _ _ _ _ _ _ _ Hb He Hv Ht Hrun)
    as [(X' & -> & Hp & Hs & Hk) _ _ _ _].
  assert (HlenX : length X' = length (span arr b e)) by (by rewrite Hp).
  assert (HlenP : b = Z.of_nat (length (take (Z.to_nat b) arr)))
    by (rewrite length_take; lia).
  assert (HlenE : e = b + Z.of_nat (length X'))
    by (rewrite HlenX, span_length; lia).
  split_and!.
  - rewrite !length_app, length_take, length_drop, HlenX, span_length by lia.
    lia.
  - intros i Hi.
    pose proof (load_outside_middle (take (Z.to_nat b) arr) (span arr b e) X'
                  (drop (Z.to_nat e) arr) b e i HlenP) as Hld.
    rewrite <- (span_decompose arr b e) in Hld by lia.
    apply Hld; [|done..]. rewrite span_length; lia.
  - by rewrite span_middle.
  - by rewrite span_middle.
  - intros HsX. rewrite (Hk HsX). symmetry. apply span_decompose. lia.
Qed.

(** With a threshold of at least one (or nothing to sort) the calls nest
    no deeper than the span can be halved, once more for the call itself,
    and in a healthy system the call returns. *)
Lemma merge_sort_terminates fuel os b e t arr :
  0 <= b <= e → e <= Z.of_nat (length arr) → valid_array arr → 0 <= t →
  1 <= t ∨ b = e → Z.log2_up (e - b) < Z.of_nat fuel →
  fst (merge_sort fuel os b e t arr) ≠ Timeout
  ∧ (healthy_env os → fst (merge_sort fuel os b e t arr) = Ret tt).
Proof.
  intros Hb He Hv Ht Ht1 Hfuel.
  destruct (merge_sort fuel os b e t arr) as [r arr'] eqn:Hrun. simpl.
  destruct (merge_sort_spec _ _ _ _ _ _ _ _ Hb He Hv Ht Hrun)
    as [_ Ho Hto Hex _].
  assert (r ≠ Timeout) as Hnt.
  { intros Hr. destruct (Hto Hr) as [ [Ht0 Hne] | Hle ].
    - destruct Ht1 as [?| Hbe]; [lia|]. rewrite span_nil in Hne by lia. done.
    - rewrite span_length, Z2Nat.id in Hle by lia. lia. }
  split; [done|]. intros Hos.
  destruct Ho as [?|[?|?]]; [done|done|]. by destruct Hex.
Qed.

(** What the sequential sort leaves in the array. *)
Lemma seq_sort_effect b e arr :
  0 <= b <= e → e <= Z.of_nat (length arr) → valid_array arr →
  seq_sort b e arr
  = (Ret tt, replace_span arr b e (qsort compare_i64 (span arr b e))).
Proof.
  intros Hb He Hv. unfold replace_span.
  rewrite (span_decompose arr b e) at 1 by lia.
  apply seq_sort_middle.
  - rewrite length_take. lia.
  - rewrite span_length by lia. lia.
  - by rewrite <- span_decompose by lia.
Qed.

(** A call that returns, none of its processes having been ended by a
    signal, leaves what the sequential sort leaves. *)
Lemma merge_sort_result fuel os b e t arr arr' :
  0 <= b <= e → e <= Z.of_nat (length arr) → valid_array arr → 0 <= t →
  unsignalled os →
  merge_sort fuel os b e t arr = (Ret tt, arr') →
  arr' = replace_span arr b e (qsort compare_i64 (span arr b e)).
Proof.
  intros Hb He Hv Ht Hos Hrun.
  destruct (merge_sort_spec _ _ _ _ _ _ _ _ Hb He Hv Ht Hrun)
    as [(X' & -> & Hp & Hs & _) _ _ _ _].
  unfold replace_span. do 2 f_equal.
  apply sorted_unique; [by apply Hs| |].
  - apply qsort_Sorted, compare_i64_consistent.
  - by rewrite Hp, (qsort_Permutation _ _ compare_i64_consistent).
Qed.

Lemma merge_sort_returns os b e t arr :
  0 <= b <= e → e <= Z.of_nat (length arr) → valid_array arr → 0 <= t →
  healthy_env os → 1 <= t →
  ∃ fuel arr', merge_sort fuel os b e t arr = (Ret tt, arr').
Proof.
  intros Hb He Hv Ht Hos Ht1.
  pose proof (Z.log2_up_nonneg (e - b)).
  exists (S (Z.to_nat (Z.log2_up (e - b)))).
  destruct (merge_sort_terminates (S (Z.to_nat (Z.log2_up (e - b)))) os b e t arr)
    as [_ Hret]; [done..|by left|lia|].
  specialize (Hret Hos).
  destruct (merge_sort _ os b e t arr) as [r arr']. simpl in Hret. subst r.
  by exists arr'.
Qed.

(** An ascending span is what qsort makes of it. *)
Lemma qsort_ascending arr b e :
  0 <= b → e <= Z.of_nat (length arr) → ascending arr b e →
  qsort compare_i64 (span arr b e) = span arr b e.
Proof.
  intros Hb He Hasc. apply sorted_unique.
  - apply qsort_Sorted, compare_i64_consistent.
  - by apply ascending_Sorted.
  - apply qsort_Permutation, compare_i64_consistent.
Qed.

Lemma replace_span_id arr b e :
  0 <= b <= e → replace_span arr b e (span arr b e) = arr.
Proof. intros. unfold replace_span. by rewrite <- span_decompose by lia. Qed.

(** ** No call with [begin <= end_] ends in the failed assertion *)

Lemma bind_not_aborted {A B} (c : proc A) (k : A → proc B) arr :
  fst (c arr) ≠ Aborted → (∀ a arr1, fst (k a arr1) ≠ Aborted) →
  fst (bind c k arr) ≠ Aborted.
Proof.
  intros Hc Hk. unfold bind.
  destruct (c arr) as [[a|code msg| | |] arr1]; simpl in *; done.
Qed.

Lemma seq_sort_not_aborted b e arr : fst (seq_sort b e arr) ≠ Aborted.
Proof. unfold seq_sort. by case_match. Qed.

Lemma create_sort_process_not_aborted sort ff sg b e t arr :
  fst (create_sort_process sort ff sg b e t arr) ≠ Aborted.
Proof.
  unfold create_sort_process. destruct ff; [done|]. destruct sg; [done|].
  destruct (sort b e t arr) as [[[]|code msg| | |] arr1]; done.
Qed.

Lemma wait_for_sort_process_not_aborted wf pid arr :
  fst (wait_for_sort_process wf pid arr) ≠ Aborted.
Proof. unfold wait_for_sort_process. by repeat case_match. Qed.

Lemma merge_halves_not_aborted mf b mid e size arr :
  fst (merge_halves mf b mid e size arr) ≠ Aborted.
Proof. unfold merge_halves. by repeat case_match. Qed.

Lemma merge_sort_not_aborted fuel os b e t arr :
  b <= e → fst (merge_sort fuel os b e t arr) ≠ Aborted.
Proof.
  intros Hbe. destruct fuel as [|fuel]; [done|]. simpl.
  apply bind_not_aborted.
  { unfold c_assert. by destruct (Z.geb_spec e b); [|lia]. }
  intros _ arr1. case_match; [apply seq_sort_not_aborted|].
  apply bind_not_aborted; [apply create_sort_process_not_aborted|].
  intros left_pid arr2.
  apply bind_not_aborted; [apply create_sort_process_not_aborted|].
  intros right_pid arr3.
  apply bind_not_aborted; [apply wait_for_sort_process_not_aborted|].
  intros _ arr4.
  apply bind_not_aborted; [apply wait_for_sort_process_not_aborted|].
  intros _ arr5. apply merge_halves_not_aborted.
Qed.

Lemma split_point_bounds b e :
  0 <= b <= e → e < SIZE_MODULUS →
  size_add b (size_sub e b / 2) = b + (e - b) / 2
  ∧ 0 <= (e - b) / 2
  ∧ 2 * ((e - b) / 2) <= e - b < 2 * ((e - b) / 2) + 2.
Proof.
  intros Hb He.
  assert (0 <= (e - b) / 2) by (apply Z.div_pos; lia).
  assert (2 * ((e - b) / 2) <= e - b) by (apply Z.mul_div_le; lia).
  assert (e - b < 2 * ((e - b) / 2) + 2).
  { pose proof (Z.mod_pos_bound (e - b) 2).
    pose proof (Z.div_mod (e - b) 2). lia. }
  split_and!; try lia.
  rewrite size_sub_small by lia. unfold size_add.
  apply Z.mod_small. lia.
Qed.

(** ** The outcome of a call depends on its span alone *)

Lemma bind_lockstep {A B} R (c1 c2 : proc A) (k1 k2 : A → proc B) m1 m2 :
  lockstep R (c1 m1) (c2 m2) →
  (∀ a m1' m2', R m1' m2' → lockstep R (k1 a m1') (k2 a m2')) →
  lockstep R (bind c1 k1 m1) (bind c2 k2 m2).
Proof.
  unfold lockstep, bind.
  destruct (c1 m1) as [r1 a1], (c2 m2) as [r2 a2]; simpl.
  intros [-> HR] Hk. destruct r2; simpl; auto.
Qed.

Lemma lockstep_mono {A} (R R' : list Z → list Z → Prop) (x y : res A * list Z) :
  (∀ m1 m2, R m1 m2 → R' m1 m2) → lockstep R x y → lockstep R' x y.
Proof. intros HR [? ?]. split; auto. Qed.

Lemma create_sort_process_lockstep R sort1 sort2 ff sg b1 e1 b2 e2 t m1 m2 :
  R m1 m2 →
  lockstep R (sort1 b1 e1 t m1) (sort2 b2 e2 t m2) →
  lockstep R (create_sort_process sort1 ff sg b1 e1 t m1)
             (create_sort_process sort2 ff sg b2 e2 t m2).
Proof.
  unfold lockstep, create_sort_process. intros HR. destruct ff; [done|].
  destruct sg; [done|].
  destruct (sort1 b1 e1 t m1) as [r1 a1], (sort2 b2 e2 t m2) as [r2 a2]; simpl.
  intros [-> HR']. destruct (child_status r2); [done|]. by destruct r2.
Qed.

Lemma wait_for_sort_process_lockstep R wf pid m1 m2 :
  R m1 m2 →
  lockstep R (wait_for_sort_process wf pid m1) (wait_for_sort_process wf pid m2).
Proof.
  unfold lockstep, wait_for_sort_process. intros HR.
  destruct wf; [done|]. by case_match.
Qed.

Lemma same_span_split n k P Q P2 Q2 m1 m2 :
  same_span n P Q P2 Q2 m1 m2 → (k <= n)%nat →
  ∃ L R, length L = k ∧ length R = (n - k)%nat
         ∧ m1 = P ++ L ++ R ++ Q ∧ m2 = P2 ++ L ++ R ++ Q2.
Proof.
  intros (X & Hlen & -> & ->) Hk. exists (take k X), (drop k X).
  rewrite length_take, length_drop, !(app_assoc (take k X)), take_drop.
  split_and!; [lia|lia|done|done].
Qed.

Lemma merge_sort_lockstep fuel : ∀ os t n P Q P2 Q2 m1 m2 b1 b2,
  b1 = Z.of_nat (length P) → b2 = Z.of_nat (length P2) →
  valid_array m1 → valid_array m2 → 0 <= t →
  same_span n P Q P2 Q2 m1 m2 →
  lockstep (same_span n P Q P2 Q2)
    (merge_sort fuel os b1 (b1 + Z.of_nat n) t m1)
    (merge_sort fuel os b2 (b2 + Z.of_nat n) t m2).
Proof.
  induction fuel as [|fuel IH];
    intros os t n P Q P2 Q2 m1 m2 b1 b2 Hb1 Hb2 Hv1 Hv2 Ht Hsame.
  { by split. }
  assert (Hlen : length m1 = (length P + (n + length Q))%nat
               ∧ length m2 = (length P2 + (n + length Q2))%nat).
  { destruct Hsame as (X & <- & -> & ->). by rewrite !length_app. }
  destruct Hlen as [Hlen1 Hlen2].
  assert (Hmod : b1 + Z.of_nat n < SIZE_MODULUS ∧ b2 + Z.of_nat n < SIZE_MODULUS).
  { unfold valid_array, SIZEOF_INT64 in *. lia. }
  destruct (Z_le_dec (Z.of_nat n) t) as [Hsz|Hsz].
  { rewrite !merge_sort_seq by lia.
    destruct Hsame as (X & HX & -> & ->).
    rewrite !seq_sort_middle by (done || lia).
    split; [done|]. exists (qsort compare_i64 X).
    by rewrite qsort_length. }
  rewrite !merge_sort_split by lia. cbv zeta.
  replace (b1 + Z.of_nat n - b1) with (Z.of_nat n) by lia.
  replace (b2 + Z.of_nat n - b2) with (Z.of_nat n) by lia.
  set (k := Z.to_nat (Z.of_nat n / 2)).
  assert (Hk : Z.of_nat n / 2 = Z.of_nat k ∧ (k <= n)%nat).
  { assert (0 <= Z.of_nat n / 2) by (apply Z.div_pos; lia).
    assert (2 * (Z.of_nat n / 2) <= Z.of_nat n) by (apply Z.mul_div_le; lia).
    subst k. lia. }
  destruct Hk as [Hk Hkn]. rewrite Hk.
  assert (Hvalid : ∀ m m', same_span n P Q P2 Q2 m m' →
            valid_array m ∧ valid_array m').
  { intros m m' (X & <- & -> & ->). unfold valid_array in *.
    rewrite !length_app in *. lia. }
  apply bind_lockstep.
  { (* the left child *)
    apply create_sort_process_lockstep; [done|].
    destruct (same_span_split _ k _ _ _ _ _ _ Hsame Hkn)
      as (L & R & HL & HR & -> & ->).
    apply (lockstep_mono (same_span k P (R ++ Q) P2 (R ++ Q2))).
    - intros ? ? (L' & HL' & -> & ->). exists (L' ++ R).
      rewrite length_app, <- !app_assoc. split_and!; [lia|done..].
    - apply IH; [done..|]. by exists L. }
  intros left_pid m1' m2' Hsame1.
  apply bind_lockstep.
  { (* the right child *)
    apply create_sort_process_lockstep; [done|].
    destruct (same_span_split _ k _ _ _ _ _ _ Hsame1 Hkn)
      as (L & R & HL & HR & -> & ->).
    destruct (Hvalid _ _ Hsame1).
    apply (lockstep_mono (same_span (n - k) (P ++ L) Q (P2 ++ L) Q2)).
    - intros ? ? (R' & HR' & -> & ->). exists (L ++ R').
      rewrite length_app, <- !app_assoc. split_and!; [lia|done..].
    - replace (b1 + Z.of_nat n) with (b1 + Z.of_nat k + Z.of_nat (n - k)) by lia.
      replace (b2 + Z.of_nat n) with (b2 + Z.of_nat k + Z.of_nat (n - k)) by lia.
      apply IH; [rewrite length_app; lia..|done|done|done|].
      exists R. by rewrite <- !app_assoc. }
  intros right_pid m1'' m2'' Hsame2.
  apply bind_lockstep; [by apply wait_for_sort_process_lockstep|].
  intros _ m1a m2a Hsame3.
  apply bind_lockstep; [by apply wait_for_sort_process_lockstep|].
  intros _ m1b m2b Hsame4.
  (* the merge *)
  destruct (malloc_fails (os [])) eqn:Hmf; [by split|].
  destruct (Hvalid _ _ Hsame4).
  destruct (same_span_split _ k _ _ _ _ _ _ Hsame4 Hkn)
    as (L & R & HL & HR & -> & ->).
  pose proof (merge_halves_middle P L R Q b1 (b1 + Z.of_nat k)
                (b1 + Z.of_nat n)) as Hm1.
  pose proof (merge_halves_middle P2 L R Q2 b2 (b2 + Z.of_nat k)
                (b2 + Z.of_nat n)) as Hm2.
  replace (b1 + Z.of_nat n - b1) with (Z.of_nat n) in Hm1 by lia.
  replace (b2 + Z.of_nat n - b2) with (Z.of_nat n) in Hm2 by lia.
  rewrite Hm1, Hm2 by (done || lia).
  split; [done|]. exists (list_merge i64_le L R).
  rewrite list_merge_length. split_and!; [lia|done..].
Qed.

(** The two children of a split may run in either order: each ends the
    same way and the array they leave together is the same. *)
Lemma children_commute fuel os_left os_right b mid e t arr
    r_left arr1 r_right arr2 :
  0 <= b <= mid → mid <= e → e <= Z.of_nat (length arr) →
  valid_array arr → 0 <= t →
  merge_sort fuel os_left b mid t arr = (r_left, arr1) →
  merge_sort fuel os_right mid e t arr1 = (r_right, arr2) →
  ∃ arr1',
    merge_sort fuel os_right mid e t arr = (r_right, arr1')
    ∧ merge_sort fuel os_left b mid t arr1' = (r_left, arr2).
Proof.
  intros Hb Hmid He Hv Ht Hleft Hright.
  set (P := take (Z.to_nat b) arr). set (L := span arr b mid).
  set (R := span arr mid e). set (Q := drop (Z.to_nat e) arr).
  assert (Harr : arr = P ++ L ++ R ++ Q).
  { subst P L R Q. rewrite (app_assoc (span _ _ _)), <- span_app by lia.
    apply span_decompose. lia. }
  assert (HP : b = Z.of_nat (length P)) by (subst P; rewrite length_take; lia).
  assert (HL : length L = Z.to_nat (mid - b)) by (subst L; apply span_length; lia).
  assert (HR : length R = Z.to_nat (e - mid)) by (subst R; apply span_length; lia).
  clearbody P L R Q. subst arr.
  replace mid with (b + Z.of_nat (length L)) in * by lia.
  replace e with (b + Z.of_nat (length L) + Z.of_nat (length R)) in * by lia.
  (* the left run, then the right run *)
  pose proof Hleft as Hleft'.
  apply (merge_sort_post _ _ _ P L (R ++ Q)) in Hleft'
    as [(L' & -> & HpL & _) _ _ _ _]; [|done..].
  assert (HlenL' : length L' = length L) by (by rewrite HpL).
  assert (Hv1 : valid_array (P ++ L' ++ R ++ Q)).
  { unfold valid_array in *. rewrite !length_app in *. lia. }
  rewrite (app_assoc P L') in Hright.
  pose proof Hright as Hright'.
  apply (merge_sort_post _ _ _ (P ++ L') R Q) in Hright'
    as [(R' & -> & HpR & _) _ _ _ _];
    [|rewrite length_app; lia|lia|by rewrite <- app_assoc|done].
  assert (HlenR' : length R' = length R) by (by rewrite HpR).
  (* the right run on the array as it was *)
  destruct (merge_sort_lockstep fuel os_right t (length R)
              (P ++ L') Q (P ++ L) Q
              ((P ++ L') ++ R ++ Q) ((P ++ L) ++ R ++ Q)
              (b + Z.of_nat (length L)) (b + Z.of_nat (length L)))
    as [Hr (R2 & _ & HR2 & HR2')];
    [rewrite length_app; lia..|by rewrite <- app_assoc|by rewrite <- app_assoc
    |done|by exists R|].
  rewrite Hright in Hr, HR2. simpl in Hr, HR2.
  apply app_inv_head, app_inv_tail in HR2. subst R2.
  (* the left run after it *)
  destruct (merge_sort_lockstep fuel os_left t (length L)
              P (R ++ Q) P (R' ++ Q)
              (P ++ L ++ R ++ Q) (P ++ L ++ R' ++ Q) b b)
    as [Hl (L2 & _ & HL2 & HL2')];
    [done|done|done| |done|by exists L|].
  { unfold valid_array in *. rewrite !length_app in *. lia. }
  rewrite Hleft in Hl, HL2. simpl in Hl, HL2.
  apply app_inv_head, app_inv_tail in HL2. subst L2.
  exists (P ++ L ++ R' ++ Q). split.
  - rewrite <- (app_assoc P L) in Hr, HR2'.
    destruct (merge_sort fuel os_right _ _ t (P ++ L ++ R ++ Q)) as [r a].
    simpl in *. subst. by rewrite <- app_assoc.
  - rewrite <- (app_assoc P L').
    destruct (merge_sort fuel os_left _ _ t (P ++ L ++ R' ++ Q)) as [r a].
    simpl in *. by subst.
Qed.

(** ** The status of a child *)

Lemma W_EXITCODE_exited code : WIFEXITED (W_EXITCODE code 0) = true.
Proof.
  unfold WIFEXITED, WTERMSIG, W_EXITCODE. rewrite Z.lor_0_r.
  apply Z.eqb_eq. change 127 with (Z.ones 7).
  rewrite Z.land_ones, Z.shiftl_mul_pow2 by lia.
  change (2 ^ 8) with (2 * 2 ^ 7). rewrite Z.mul_assoc. apply Z.mod_mul. lia.
Qed.

(** A child created on a span with [begin <= end_] terminates by [exit],
    unless a signal from outside ends it: then its status tells that
    signal. *)
Lemma create_sort_process_child_exited fuel os ff sg b e t arr pid arr' :
  b <= e →
  create_sort_process (merge_sort fuel os) ff sg b e t arr = (Ret pid, arr') →
  match sg with
  | None => WIFEXITED (status_of pid) = true
  | Some s => WTERMSIG (status_of pid) = signo s
  end.
Proof.
  intros Hbe. unfold create_sort_process. destruct ff; [done|].
  destruct sg as [s|]; [intros [= <- <-]; by destruct s|].
  pose proof (merge_sort_not_aborted fuel os b e t arr Hbe) as Hna.
  destruct (merge_sort fuel os b e t arr) as [[[]|code msg| | |] arr1];
    simpl in *; try done; intros [= <- <-]; apply W_EXITCODE_exited.
Qed.

(** [wait_for_sort_process] returns exactly when [waitpid] succeeds and the
    status is not that of an [exit] with a code other than zero. *)
Lemma wait_for_sort_process_returns wf pid arr :
  wait_for_sort_process wf pid arr = (Ret tt, arr)
  ↔ wf = false
    ∧ (WIFEXITED (status_of pid) = true → WEXITSTATUS (status_of pid) = 0).
Proof.
  unfold wait_for_sort_process. destruct wf; [split; [done|by intros [? _]]|].
  destruct (WIFEXITED (status_of pid)); simpl.
  - destruct (Z.eqb_spec (WEXITSTATUS (status_of pid)) 0) as [Heq|Hne]; simpl.
    + by split.
    + split; [done|]. intros [_ Hz]. by destruct Hne; apply Hz.
  - by split.
Qed.

(** * Main results *)

(** C1, at an input where the code departs from it.  The call is on
    [2; 0; 3; 1] with threshold 2, and the right child is killed by signal
    9 before it has sorted its half.  The left child sorts its half; the
    wait for the right child returns as it does after a success, since the
    status of a killed child is not that of an exit; the parent merges the
    two halves and returns.  The call has returned and its span is not in
    ascending order.  This is so whatever [qsort] the C library has. *)
Theorem merge_sort_signalled_child_unsorted :
  WIFEXITED (W_EXITCODE 0 (signo SIGKILL)) = false
  ∧ merge_sort 2 killed_right 0 4 2 [2; 0; 3; 1] = (Ret tt, [0; 2; 3; 1])
  ∧ ¬ ascending [0; 2; 3; 1] 0 4.
Proof.
  split_and!; [done| |].
  - assert (Hq : qsort compare_i64 [2; 0] = [0; 2]).
    { apply sorted_unique.
      - apply qsort_Sorted, compare_i64_consistent.
      - repeat constructor; by vm_compute.
      - rewrite (qsort_Permutation _ _ compare_i64_consistent).
        apply Permutation_swap. }
    rewrite merge_sort_split; [|lia|by vm_compute|lia]. cbv zeta.
    change (0 + (4 - 0) / 2) with 2.
    unfold bind at 1, create_sort_process at 1.
    simpl (fork_fails_left _). simpl (signal_left _). cbv beta iota.
    rewrite (merge_sort_seq 0 (child_env false killed_right) 0 2 2
               [2; 0; 3; 1]); [|lia|by vm_compute|lia].
    rewrite seq_sort_effect; [|lia|simpl; lia|by vm_compute].
    change (span [2; 0; 3; 1] 0 2) with [2; 0]. rewrite Hq.
    reflexivity.
  - intros Hasc. destruct (Hasc 2) as (x & y & Hx & Hy & Hle); [lia..|].
    vm_compute in Hx, Hy. injection Hx as <-. injection Hy as <-. lia.
Qed.

(** C2. When [begin, mid) and [mid, end_) are each ascending, the merge
    followed by the copy back returns with [begin, end_) ascending and
    holding a rearrangement of its former values, namely the merge of the
    two halves in which the left element goes first whenever it is not
    greater than the right one.  A turn of the loop with both halves
    unfinished and [left <= right] copies the left element and advances
    the left cursor; a turn with one half exhausted copies from the other
    half, whatever the values.  Either half may be empty. *)
Theorem merge_halves_merges arr b mid e :
  0 <= b <= mid → mid <= e → e <= Z.of_nat (length arr) → valid_array arr →
  ascending arr b mid → ascending arr mid e →
  (∃ arr', merge_halves false b mid e (e - b) arr = (Ret tt, arr')
     ∧ ascending arr' b e
     ∧ span arr' b e ≡ₚ span arr b e
     ∧ span arr' b e = list_merge i64_le (span arr b mid) (span arr mid e))
  ∧ (∀ l r d temp x y,
       l < mid → r < e → load arr l = Some x → load arr r = Some y → x <= y →
       merge_loop arr mid e l r d temp =
         temp' ← copy_elem arr l temp d;
         merge_loop arr mid e (l + 1) r (d + 1) temp')
  ∧ (∀ l r d temp, l >= mid → r < e →
       merge_loop arr mid e l r d temp =
         temp' ← copy_elem arr r temp d;
         merge_loop arr mid e l (r + 1) (d + 1) temp')
  ∧ (∀ l r d temp, l < mid → r >= e →
       merge_loop arr mid e l r d temp =
         temp' ← copy_elem arr l temp d;
         merge_loop arr mid e (l + 1) r (d + 1) temp').
Proof.
  intros Hb Hmid He Hv HsL HsR. split_and!.
  - set (merged := list_merge i64_le (span arr b mid) (span arr mid e)).
    assert (Hlen : length merged = Z.to_nat (e - b)).
    { unfold merged. rewrite list_merge_length, !span_length by lia. lia. }
    exists (replace_span arr b e merged). split_and!.
    + unfold replace_span.
      rewrite (span_decompose arr b e) at 1 by lia.
      rewrite (span_app arr b mid e), <- app_assoc by lia.
      apply merge_halves_middle.
      * rewrite length_take. lia.
      * rewrite span_length by lia. lia.
      * rewrite span_length by lia. lia.
      * rewrite (app_assoc (span arr b mid)), <- (span_app arr b mid e),
          <- (span_decompose arr b e) by lia. done.
    + apply ascending_Sorted;
        [lia|rewrite replace_span_length; [lia|lia|lia|done]|].
      rewrite replace_span_span; [|lia|lia|done].
      apply Sorted_list_merge; [apply _|apply ascending_Sorted; [lia|lia|done]..].
    + rewrite replace_span_span; [|lia|lia|done].
      unfold merged. by rewrite merge_Permutation, <- span_app by lia.
    + rewrite replace_span_span; [done|lia|lia|done].
  - intros l r d temp x y Hl Hr Hx Hy Hxy.
    rewrite (merge_loop_compare _ _ _ _ _ _ _ x y) by done.
    apply compare_i64_le in Hxy.
    by destruct (Z.leb_spec (compare_i64 x y) 0); [|lia].
  - intros. by apply merge_loop_drain_right.
  - intros. by apply merge_loop_drain_left.
Qed.

(** C3, as the code has it.  With a threshold of at least one, or with an
    empty span, the recursion is finite: every split of a span longer than
    the threshold makes two spans of half its length, rounded down and up,
    so the calls of [merge_sort] never nest deeper than the binary logarithm
    of the number of elements, rounded up, and one more; where the
    operating system refuses nothing the call returns. *)
Theorem merge_sort_recursion_finite fuel os arr b e t :
  0 <= b <= e → e <= Z.of_nat (length arr) → valid_array arr → 0 <= t →
  1 <= t ∨ b = e → Z.log2_up (e - b) < Z.of_nat fuel →
  fst (merge_sort fuel os b e t arr) ≠ Timeout
  ∧ (healthy_env os → fst (merge_sort fuel os b e t arr) = Ret tt).
Proof. apply merge_sort_terminates. Qed.

(** C5, as the code has it.  Take the runs in which no process is ended by
    a signal.  Whatever the thresholds, and whatever the operating system
    refused along the way, two calls on the same segment that return leave
    the same array, the one the sequential sort alone leaves.  With a
    threshold of at least one and nothing refused, the call does return. *)
Theorem merge_sort_threshold_independent os1 os2 arr b e t1 t2 :
  0 <= b <= e → e <= Z.of_nat (length arr) → valid_array arr →
  0 <= t1 → 0 <= t2 → unsignalled os1 → unsignalled os2 →
  (∀ fuel1 fuel2 arr1 arr2,
     merge_sort fuel1 os1 b e t1 arr = (Ret tt, arr1) →
     merge_sort fuel2 os2 b e t2 arr = (Ret tt, arr2) →
     arr1 = arr2)
  ∧ (∀ fuel arr1,
       merge_sort fuel os1 b e t1 arr = (Ret tt, arr1) →
       seq_sort b e arr = (Ret tt, arr1))
  ∧ (healthy_env os1 → 1 <= t1 →
     ∃ fuel arr1, merge_sort fuel os1 b e t1 arr = (Ret tt, arr1)).
Proof.
  intros Hb He Hv Ht1 Ht2 Hos1 Hos2. split_and!.
  - intros fuel1 fuel2 arr1 arr2 Hrun1 Hrun2.
    rewrite (merge_sort_result _ _ _ _ _ _ _ Hb He Hv Ht1 Hos1 Hrun1).
    by rewrite (merge_sort_result _ _ _ _ _ _ _ Hb He Hv Ht2 Hos2 Hrun2).
  - intros fuel arr1 Hrun.
    rewrite (merge_sort_result _ _ _ _ _ _ _ Hb He Hv Ht1 Hos1 Hrun).
    by apply seq_sort_effect.
  - intros. by apply merge_sort_returns.
Qed.

(** C6. A call whose span is no longer than the threshold, a span of
    exactly threshold elements included, is the sequential sort and
    nothing else, whatever the operating system would refuse: it returns
    with the span sorted by [qsort].  A call whose span is longer, from
    threshold + 1 elements on, creates the two sorting processes: when the
    first fork is refused it ends in the fatal error with the array as it
    was.  On an empty span the call returns with the array unchanged. *)
Theorem merge_sort_path fuel os arr b e t :
  is_size_t b → is_size_t e → b <= e → 0 <= t →
  (e - b <= t →
     merge_sort (S fuel) os b e t arr = seq_sort b e arr
     ∧ (e <= Z.of_nat (length arr) → valid_array arr →
        merge_sort (S fuel) os b e t arr
        = (Ret tt, replace_span arr b e (qsort compare_i64 (span arr b e)))))
  ∧ (t < e - b →
     merge_sort (S fuel) os b e t arr =
       (let mid := b + (e - b) / 2 in
        let* left_pid :=
          create_sort_process (merge_sort fuel (child_env false os))
            (fork_fails_left (os [])) (signal_left (os [])) b mid t in
        let* right_pid :=
          create_sort_process (merge_sort fuel (child_env true os))
            (fork_fails_right (os [])) (signal_right (os [])) mid e t in
        let* _ := wait_for_sort_process (waitpid_fails_left (os [])) left_pid in
        let* _ := wait_for_sort_process (waitpid_fails_right (os [])) right_pid in
        merge_halves (malloc_fails (os [])) b mid e (e - b)) arr
     ∧ (fork_fails_left (os []) = true →
        merge_sort (S fuel) os b e t arr =
          (Exited 1 "Error: fork failed to start a new process", arr)))
  ∧ (b = e → e <= Z.of_nat (length arr) →
     merge_sort (S fuel) os b e t arr = (Ret tt, arr)).
Proof.
  unfold is_size_t. intros Hb He Hbe Ht. split_and!.
  - intros Hsz. split; [apply merge_sort_seq; lia|].
    intros Hlen Hv. rewrite merge_sort_seq by lia.
    apply seq_sort_effect; [lia|done..].
  - intros Hsz. split; [apply merge_sort_split; lia|].
    intros Hff. rewrite merge_sort_split by lia. cbv zeta.
    unfold bind at 1, create_sort_process at 1. by rewrite Hff.
  - intros -> Hlen. rewrite merge_sort_seq by lia.
    unfold seq_sort. rewrite size_sub_small by lia.
    destruct (Z.leb_spec 0 e); [|lia].
    destruct (Z.leb_spec (e + (e - e)) (Z.of_nat (length arr))); [|lia].
    simpl. rewrite span_nil by lia.
    assert (qsort compare_i64 [] = []) as ->.
    { apply Permutation_nil_r.
      apply qsort_Permutation, compare_i64_consistent. }
    simpl. replace (e + (e - e)) with e by lia. by rewrite take_drop.
Qed.

(** C7. When [merge_sort] splits, the split point it computes is
    [mid = begin + size / 2] with [size / 2] rounded down, and the addition
    does not wrap around.  The left child is created on [begin, mid) and
    has [size / 2] elements rounded down, the right child on [mid, end_)
    and has [size / 2] elements rounded up.  Every index of the parent's
    span is in exactly one of the two. *)
Theorem merge_sort_split_point fuel os arr b e t :
  is_size_t b → is_size_t e → b <= e → t < e - b →
  let size := e - b in
  let mid := b + size / 2 in
  size_add b (size_sub e b / 2) = mid
  ∧ merge_sort (S fuel) os b e t arr =
      (let* left_pid :=
         create_sort_process (merge_sort fuel (child_env false os))
           (fork_fails_left (os [])) (signal_left (os [])) b mid t in
       let* right_pid :=
         create_sort_process (merge_sort fuel (child_env true os))
           (fork_fails_right (os [])) (signal_right (os [])) mid e t in
       let* _ := wait_for_sort_process (waitpid_fails_left (os [])) left_pid in
       let* _ := wait_for_sort_process (waitpid_fails_right (os [])) right_pid in
       merge_halves (malloc_fails (os [])) b mid e size) arr
  ∧ mid - b = size / 2
  ∧ e - mid = (size + 1) / 2
  ∧ 2 * (mid - b) <= size < 2 * (mid - b) + 2
  ∧ 2 * (e - mid) - 2 < size <= 2 * (e - mid)
  ∧ (mid - b) + (e - mid) = size
  ∧ b <= mid <= e
  ∧ (∀ i, b <= i < e ↔ b <= i < mid ∨ mid <= i < e)
  ∧ (∀ i, ¬ (b <= i < mid ∧ mid <= i < e)).
Proof.
  intros Hb He Hbe Hsz size mid. unfold is_size_t in Hb, He.
  destruct (split_point_bounds b e) as (Hmid & Hpos & Hhalf); [lia..|].
  fold size in Hhalf, Hpos. subst mid.
  split_and!; try lia.
  - done.
  - apply merge_sort_split; lia.
  - apply Z.div_unique with (r := size + 1 - 2 * (size - size / 2)); lia.
Qed.

(** C8. A span that is already ascending is left exactly as it is,
    element by element, by every call that returns, whatever the
    threshold. *)
Theorem merge_sort_idempotent os arr b e t :
  0 <= b <= e → e <= Z.of_nat (length arr) → valid_array arr → 0 <= t →
  ascending arr b e →
  (∀ fuel arr', merge_sort fuel os b e t arr = (Ret tt, arr') → arr' = arr)
  ∧ (healthy_env os → 1 <= t →
     ∃ fuel, merge_sort fuel os b e t arr = (Ret tt, arr)).
Proof.
  intros Hb He Hv Ht Hasc.
  assert (Hid : ∀ fuel arr',
    merge_sort fuel os b e t arr = (Ret tt, arr') → arr' = arr).
  { intros fuel arr' Hrun.
    destruct (merge_sort_effect _ _ _ _ _ _ _ _ Hb He Hv Ht Hrun)
      as (_ & _ & _ & _ & Hkept).
    apply Hkept, ascending_Sorted; [lia|lia|done]. }
  split; [done|]. intros Hos Ht1.
  destruct (merge_sort_returns os b e t arr) as (fuel & arr' & Hrun); [done..|].
  exists fuel. by rewrite Hrun, (Hid _ _ Hrun).
Qed.

(** C9. A call with [end_ < begin] stops at once in the failed assertion
    and has written nothing.  A call with [begin <= end_] never ends in
    the failed assertion; the two calls it makes in its children are again
    calls with [begin <= end_], and a child created on such a span
    terminates by [exit], never by the signal of the assertion: the only
    signal its status can tell is one that was sent to it from outside. *)
Theorem merge_sort_assertion fuel os arr b e t :
  (e < b → merge_sort (S fuel) os b e t arr = (Aborted, arr))
  ∧ (b <= e → fst (merge_sort fuel os b e t arr) ≠ Aborted)
  ∧ (is_size_t b → is_size_t e → b <= e →
     let mid := size_add b (size_sub e b / 2) in b <= mid <= e)
  ∧ (b <= e → ∀ fork_fails killed pid arr',
       create_sort_process (merge_sort fuel os) fork_fails killed b e t arr
       = (Ret pid, arr') →
       match killed with
       | None => WIFEXITED (status_of pid) = true
       | Some s => WTERMSIG (status_of pid) = signo s
       end).
Proof.
  split_and!.
  - apply merge_sort_fails_assert.
  - apply merge_sort_not_aborted.
  - intros Hb He Hbe mid. unfold is_size_t in Hb, He. subst mid.
    destruct (split_point_bounds b e) as (-> & ? & ?); lia.
  - intros Hbe ff sg pid arr'. by apply create_sort_process_child_exited.
Qed.

(** C10. However a call on [begin, end_) ends, the array keeps its length
    and every cell outside [begin, end_) keeps its value.  The sequential
    sort rewrites the span from the span.  The merge depends on the array
    only through the two halves; it fills the first [end_ - begin] cells of
    the temporary array and leaves the rest of it alone.  The copy back
    rewrites the span and nothing else. *)
Theorem merge_sort_frame fuel os arr b e t r arr' :
  0 <= b <= e → e <= Z.of_nat (length arr) → valid_array arr → 0 <= t →
  merge_sort fuel os b e t arr = (r, arr') →
  (length arr' = length arr
   ∧ ∀ i, i < b ∨ e <= i → load arr' i = load arr i)
  ∧ seq_sort b e arr
    = (Ret tt, replace_span arr b e (qsort compare_i64 (span arr b e)))
  ∧ (∀ mid temp, b <= mid <= e → e - b <= Z.of_nat (length temp) →
       merge arr b mid e temp =
         Some ((Some <$> list_merge i64_le (span arr b mid) (span arr mid e))
               ++ drop (Z.to_nat (e - b)) temp))
  ∧ (∀ vs rest, Z.of_nat (length vs) = e - b →
       copy_back ((Some <$> vs) ++ rest) b (e - b) 0 arr
       = Some (replace_span arr b e vs)).
Proof.
  intros Hb He Hv Ht Hrun. split_and!.
  - by destruct (merge_sort_effect _ _ _ _ _ _ _ _ Hb He Hv Ht Hrun)
      as (? & ? & _).
  - by destruct (merge_sort_effect _ _ _ _ _ _ _ _ Hb He Hv Ht Hrun)
      as (? & ? & _).
  - by apply seq_sort_effect.
  - intros mid temp Hmid Hlen. unfold merge.
    rewrite (merge_loop_spec _ _ _ (Z.to_nat (e - b))) by lia.
    done.
  - intros vs rest Hlen.
    assert (e < SIZE_MODULUS).
    { unfold valid_array, SIZEOF_INT64 in Hv. lia. }
    rewrite (copy_back_spec _ _ _ vs 0 arr [] rest) by (done || lia).
    unfold replace_span.
    replace (b + 0) with b by lia. by replace (b + (e - b)) with e by lia.
Qed.

End Correctness.

(** C4, at the input where the code departs from it.  A child that was
    killed by signal 9 has not exited, and [wait_for_sort_process] returns
    to the caller without the fatal error.  The parent then merges what it
    finds: halves that were not sorted come back, without an error, as a
    span that is not sorted. *)
Theorem wait_for_sort_process_misses_signal :
  WIFEXITED 9 = false ∧ WIFSIGNALED 9 = true ∧ WTERMSIG 9 = 9
  ∧ (∀ arr, wait_for_sort_process false (Pid 9) arr = (Ret tt, arr))
  ∧ merge_halves false 0 2 4 4 [3; 1; 0; 2] = (Ret tt, [0; 2; 3; 1]).
Proof. split_and!; try reflexivity. Qed.

(** C3, as it is stated, fails for threshold 0.  A span of one element is
    split into an empty span and the span itself, so the right child gets
    the call its parent got: in a system that refuses nothing no recursion
    budget is enough. *)
Lemma merge_sort_threshold_0_diverges :
  ¬ ∃ fuel,
      fst (merge_sort (libc := insertion_libc) fuel healthy 0 1 0 [5]) ≠ Timeout.
Proof.
  intros [fuel Hne].
  destruct (merge_sort (libc := insertion_libc) fuel healthy 0 1 0 [5])
    as [r arr'] eqn:Hrun.
  apply merge_sort_spec in Hrun as [_ Ho _ Hex Hret];
    [|lia|simpl; lia|by vm_compute|lia].
  simpl in Hne. destruct Ho as [->|[->|Hx]].
  - destruct (Hret eq_refl) as [?|Hnil]; [done|lia|]. by vm_compute in Hnil.
  - done.
  - by apply Hex.
Qed.

(** With threshold 0 a call on one element never gets anywhere: its right
    child is the same call again. *)
Lemma merge_sort_threshold_0_stuck fuel :
  merge_sort (libc := insertion_libc) fuel healthy 0 1 0 [2; 1]
  = (Timeout, [2; 1]).
Proof.
  induction fuel as [|fuel IH]; [reflexivity|].
  rewrite (merge_sort_split (libc := insertion_libc) fuel healthy 0 1 0
             [2; 1]); [|lia|by vm_compute|lia].
  cbv zeta. change (0 + (1 - 0) / 2) with 0.
  unfold bind at 1, create_sort_process at 1.
  simpl (fork_fails_left _). simpl (signal_left _). cbv beta iota.
  destruct fuel as [|fuel']; [reflexivity|].
  rewrite (merge_sort_seq (libc := insertion_libc) fuel'
             (child_env false healthy) 0 0 0 [2; 1]);
    [|lia|by vm_compute|lia].
  replace (seq_sort (libc := insertion_libc) 0 0 [2; 1])
    with (Ret tt, [2; 1]) by (by vm_compute).
  cbv beta iota. simpl (child_status _). cbv beta iota.
  unfold bind at 1, create_sort_process at 1.
  simpl (fork_fails_right _). simpl (signal_right _). cbv beta iota.
  change (child_env true healthy) with healthy.
  by rewrite IH.
Qed.

(** C5, as it is stated, fails for threshold 0.  With threshold 2 the call
    on [2; 1] is the sequential sort and leaves [1; 2].  With threshold 0,
    in a system that refuses nothing and sends no signal, the call never
    returns and the array stays [2; 1] whatever the recursion budget. *)
Lemma merge_sort_threshold_0_differs :
  merge_sort (libc := insertion_libc) 1 healthy 0 2 2 [2; 1]
  = (Ret tt, [1; 2])
  ∧ seq_sort (libc := insertion_libc) 0 2 [2; 1] = (Ret tt, [1; 2])
  ∧ ¬ ∃ fuel,
        merge_sort (libc := insertion_libc) fuel healthy 0 2 0 [2; 1]
        ≠ (Timeout, [2; 1]).
Proof.
  split_and!; [reflexivity|reflexivity|].
  intros [fuel Hne]. apply Hne. clear Hne.
  destruct fuel as [|fuel]; [reflexivity|].
  rewrite (merge_sort_split (libc := insertion_libc) fuel healthy 0 2 0
             [2; 1]); [|lia|by vm_compute|lia].
  cbv zeta. change (0 + (2 - 0) / 2) with 1.
  unfold bind at 1, create_sort_process at 1.
  simpl (fork_fails_left _). simpl (signal_left _). cbv beta iota.
  change (child_env false healthy) with healthy.
  by rewrite merge_sort_threshold_0_stuck.
Qed.

(** * The theorems at concrete inputs *)

Lemma healthy_is_healthy : healthy_env healthy.
Proof. intros path. reflexivity. Defined.

Lemma healthy_is_unsignalled : unsignalled healthy.
Proof. intros path. split; reflexivity. Defined.

Lemma starved_right_is_unsignalled : unsignalled starved_right.
Proof. intros [|[] [|]]; split; reflexivity. Defined.

Lemma merge_halves_merges_witness :
  ∃ arr', merge_halves false 0 3 6 (6 - 0) [1; 4; 7; 2; 2; 9] = (Ret tt, arr')
    ∧ ascending arr' 0 6
    ∧ span arr' 0 6 ≡ₚ span [1; 4; 7; 2; 2; 9] 0 6
    ∧ span arr' 0 6
      = list_merge i64_le (span [1; 4; 7; 2; 2; 9] 0 3)
                          (span [1; 4; 7; 2; 2; 9] 3 6).
Proof.
  apply (merge_halves_merges [1; 4; 7; 2; 2; 9] 0 3 6);
    [lia|lia|simpl; lia|by vm_compute| |].
  - apply ascending_Sorted; [lia|simpl; lia|].
    vm_compute. repeat constructor; by vm_compute.
  - apply ascending_Sorted; [lia|simpl; lia|].
    vm_compute. repeat constructor; by vm_compute.
Defined.

Lemma merge_sort_recursion_finite_witness :
  fst (merge_sort (libc := insertion_libc) 4 healthy 0 8 1
         [5; 3; 8; 1; 9; 2; 7; 4]) ≠ Timeout
  ∧ (healthy_env healthy →
     fst (merge_sort (libc := insertion_libc) 4 healthy 0 8 1
            [5; 3; 8; 1; 9; 2; 7; 4]) = Ret tt).
Proof.
  apply (merge_sort_recursion_finite (libc := insertion_libc) 4 healthy
           [5; 3; 8; 1; 9; 2; 7; 4] 0 8 1);
    [lia|simpl; lia|by vm_compute|lia|left; lia|by vm_compute].
Defined.

Lemma merge_sort_threshold_independent_witness :
  seq_sort (libc := insertion_libc) 0 8 [5; 3; 8; 1; 9; 2; 7; 4]
  = (Ret tt, [1; 2; 3; 4; 5; 7; 8; 9]).
Proof.
  apply (proj1 (proj2 (merge_sort_threshold_independent
                  (libc := insertion_libc) healthy starved_right
                  [5; 3; 8; 1; 9; 2; 7; 4] 0 8 2 5
                  ltac:(lia) ltac:(simpl; lia) ltac:(by vm_compute)
                  ltac:(lia) ltac:(lia)
                  healthy_is_unsignalled starved_right_is_unsignalled))
               3%nat).
  vm_compute. reflexivity.
Defined.

Lemma merge_sort_path_witness :
  merge_sort (libc := insertion_libc) 1 starved_right 0 3 3 [3; 1; 2]
  = seq_sort (libc := insertion_libc) 0 3 [3; 1; 2]
  ∧ (3 <= Z.of_nat (length [3; 1; 2]) → valid_array [3; 1; 2] →
     merge_sort (libc := insertion_libc) 1 starved_right 0 3 3 [3; 1; 2]
     = (Ret tt,
        replace_span [3; 1; 2] 0 3
          (qsort (Libc := insertion_libc) compare_i64 (span [3; 1; 2] 0 3)))).
Proof.
  apply (merge_sort_path (libc := insertion_libc) 0 starved_right
           [3; 1; 2] 0 3 3); [by vm_compute|by vm_compute|lia|lia|lia].
Defined.

Lemma merge_sort_split_point_witness :
  size_add 0 (size_sub 5 0 / 2) = 0 + (5 - 0) / 2
  ∧ 2 * (0 + (5 - 0) / 2 - 0) <= 5 - 0 < 2 * (0 + (5 - 0) / 2 - 0) + 2
  ∧ 2 * (5 - (0 + (5 - 0) / 2)) - 2 < 5 - 0 <= 2 * (5 - (0 + (5 - 0) / 2)).
Proof.
  destruct (merge_sort_split_point (libc := insertion_libc) 0 healthy
              [9; 5; 4; 3; 0] 0 5 1 ltac:(by vm_compute) ltac:(by vm_compute)
              ltac:(lia) ltac:(lia))
    as (Hmid & _ & _ & _ & Hl & Hr & _).
  exact (conj Hmid (conj Hl Hr)).
Defined.

Lemma merge_sort_idempotent_witness :
  ∃ fuel,
    merge_sort (libc := insertion_libc) fuel healthy 1 4 1 [9; 3; 4; 5; 0]
    = (Ret tt, [9; 3; 4; 5; 0]).
Proof.
  apply (merge_sort_idempotent (libc := insertion_libc) healthy
           [9; 3; 4; 5; 0] 1 4 1);
    [lia|simpl; lia|by vm_compute|lia| |apply healthy_is_healthy|lia].
  apply ascending_Sorted; [lia|simpl; lia|].
  vm_compute. repeat constructor; by vm_compute.
Defined.

Lemma merge_sort_assertion_witness :
  merge_sort (libc := insertion_libc) 1 healthy 1 0 2 [5] = (Aborted, [5])
  ∧ fst (merge_sort (libc := insertion_libc) 1 healthy 0 1 2 [5]) ≠ Aborted.
Proof.
  split.
  - apply (merge_sort_assertion (libc := insertion_libc) 0 healthy [5] 1 0 2).
    lia.
  - apply (merge_sort_assertion (libc := insertion_libc) 1 healthy [5] 0 1 2).
    lia.
Defined.

Lemma merge_sort_frame_witness :
  length [9; 3; 4; 5; 0] = length [9; 5; 4; 3; 0]
  ∧ ∀ i, i < 1 ∨ 4 <= i → load [9; 3; 4; 5; 0] i = load [9; 5; 4; 3; 0] i.
Proof.
  apply (merge_sort_frame (libc := insertion_libc) 3 healthy
           [9; 5; 4; 3; 0] 1 4 1 (Ret tt) [9; 3; 4; 5; 0]);
    [lia|simpl; lia|by vm_compute|lia|].
  vm_compute. reflexivity.
Defined.

(** * Further properties of the program *)

(** ** compare_i64 *)

(** X1. [compare_i64] answers -1, 0 or 1: -1 exactly when the left value is
    the smaller one, 1 exactly when it is the greater one, 0 exactly when
    the two are equal.  Swapping the arguments negates the answer, and the
    order it induces is transitive: it is a comparison function as [qsort]
    wants one. *)
Theorem compare_i64_three_way x y :
  (compare_i64 x y = -1 ↔ x < y)
  ∧ (compare_i64 x y = 0 ↔ x = y)
  ∧ (compare_i64 x y = 1 ↔ x > y)
  ∧ (compare_i64 x y = -1 ∨ compare_i64 x y = 0 ∨ compare_i64 x y = 1)
  ∧ compare_i64 y x = - compare_i64 x y
  ∧ (∀ z, compare_i64 x y <= 0 → compare_i64 y z <= 0 → compare_i64 x z <= 0).
Proof.
  split_and!; try (unfold compare_i64; repeat case_match; lia).
  intros z. rewrite !compare_i64_le. lia.
Qed.

(** ** merge *)

Lemma merge_loop_overflow arr endl endr n : ∀ l r d t,
  n = (Z.to_nat (endl - l) + Z.to_nat (endr - r))%nat →
  0 <= l → 0 <= r →
  endl <= Z.of_nat (length arr) → endr <= Z.of_nat (length arr) →
  0 <= d <= Z.of_nat (length t) → Z.of_nat (length t) < d + Z.of_nat n →
  merge_loop arr endl endr l r d t = None.
Proof.
  induction n as [|n IH]; intros l r d t Hn Hl Hr Hel Her Hd Ht; [lia|].
  assert (Hfull : ∀ src x, load arr src = Some x → d = Z.of_nat (length t) →
            copy_elem arr src t d = None).
  { intros src x Hx ->. unfold copy_elem. rewrite Hx. simpl. unfold store.
    destruct (Z.ltb_spec (Z.of_nat (length t)) (Z.of_nat (length t))); [lia|].
    by rewrite andb_false_r. }
  assert (Hroom : ∀ src x, load arr src = Some x → d ≠ Z.of_nat (length t) →
            copy_elem arr src t d = Some (<[Z.to_nat d := Some x]> t)).
  { intros. apply copy_elem_in_range; [done|lia]. }
  assert (Hnext : ∀ x l' r',
            n = (Z.to_nat (endl - l') + Z.to_nat (endr - r'))%nat →
            0 <= l' → 0 <= r' → d ≠ Z.of_nat (length t) →
            merge_loop arr endl endr l' r' (d + 1)
              (<[Z.to_nat d := Some x]> t) = None).
  { intros. apply IH; rewrite ?length_insert; lia. }
  destruct (Z_ge_dec l endl) as [Hle|Hle], (Z_ge_dec r endr) as [Hre|Hre];
    [lia| | |].
  - destruct (load_in_range arr r) as [y Hy]; [lia|].
    rewrite merge_loop_drain_right by lia.
    destruct (decide (d = Z.of_nat (length t))) as [Hdt|Hdt].
    + by rewrite (Hfull r y).
    + rewrite (Hroom r y) by done. simpl. apply Hnext; lia.
  - destruct (load_in_range arr l) as [x Hx]; [lia|].
    rewrite merge_loop_drain_left by lia.
    destruct (decide (d = Z.of_nat (length t))) as [Hdt|Hdt].
    + by rewrite (Hfull l x).
    + rewrite (Hroom l x) by done. simpl. apply Hnext; lia.
  - destruct (load_in_range arr l) as [x Hx]; [lia|].
    destruct (load_in_range arr r) as [y Hy]; [lia|].
    rewrite (merge_loop_compare _ _ _ _ _ _ _ x y) by (done || lia).
    destruct (decide (d = Z.of_nat (length t))) as [Hdt|Hdt].
    + rewrite (Hfull l x), (Hfull r y) by done. by case_match.
    + rewrite (Hroom l x), (Hroom r y) by done. simpl.
      case_match; apply Hnext; lia.
Qed.

(** X3. [merge] does not check the size of the temporary array: handed one
    with fewer than [end_ - begin] cells it writes past its end. *)
Theorem merge_short_buffer arr b mid e temp :
  0 <= b <= mid → mid <= e → e <= Z.of_nat (length arr) →
  Z.of_nat (length temp) < e - b →
  merge arr b mid e temp = None.
Proof.
  intros Hb Hmid He Hlen. unfold merge.
  apply (merge_loop_overflow _ _ _ (Z.to_nat (e - b))); lia.
Qed.

Lemma load_replace_span_outside arr b e l i :
  0 <= b <= e → e <= Z.of_nat (length arr) → length l = Z.to_nat (e - b) →
  i < b ∨ e <= i → load (replace_span arr b e l) i = load arr i.
Proof.
  intros Hb He Hl Hi.
  pose proof (load_outside_middle (take (Z.to_nat b) arr) (span arr b e) l
                (drop (Z.to_nat e) arr) b e i) as Hld.
  rewrite <- (span_decompose arr b e) in Hld by lia.
  apply Hld; [| |by rewrite span_length by lia|done].
  - rewrite length_take. lia.
  - rewrite span_length by lia. lia.
Qed.

Section Rearrangement.
Context {libc : Libc}.

(** X2. The merge and the copy back rearrange: whether or not the two
    halves were sorted, the call returns, the span holds the values it held
    before, and no cell outside the span and no length has changed.  When
    the temporary array cannot be allocated the call is fatal and the array
    is as it was. *)
Theorem merge_halves_rearranges arr b mid e :
  0 <= b <= mid → mid <= e → e <= Z.of_nat (length arr) → valid_array arr →
  (∃ arr', merge_halves false b mid e (e - b) arr = (Ret tt, arr')
     ∧ length arr' = length arr
     ∧ span arr' b e ≡ₚ span arr b e
     ∧ ∀ i, i < b ∨ e <= i → load arr' i = load arr i)
  ∧ merge_halves true b mid e (e - b) arr = (Exited 1 "malloc() failed", arr).
Proof.
  intros Hb Hmid He Hv. split; [|done].
  set (merged := list_merge i64_le (span arr b mid) (span arr mid e)).
  assert (Hlen : length merged = Z.to_nat (e - b)).
  { unfold merged. rewrite list_merge_length, !span_length by lia. lia. }
  exists (replace_span arr b e merged). split_and!.
  - unfold replace_span.
    rewrite (span_decompose arr b e) at 1 by lia.
    rewrite (span_app arr b mid e), <- app_assoc by lia.
    apply merge_halves_middle.
    + rewrite length_take. lia.
    + rewrite span_length by lia. lia.
    + rewrite span_length by lia. lia.
    + rewrite (app_assoc (span arr b mid)), <- (span_app arr b mid e),
        <- (span_decompose arr b e) by lia. done.
  - apply replace_span_length; [lia|lia|done].
  - rewrite replace_span_span; [|lia|lia|done].
    unfold merged. by rewrite merge_Permutation, <- span_app by lia.
  - intros i Hi. apply load_replace_span_outside; [lia|lia|done|done].
Qed.

(** ** seq_sort *)

(** X4. [seq_sort] has no guard of its own.  Called with [end_ < begin] it
    computes an element count that has wrapped around to
    [2^64 - (begin - end_)] and hands [qsort] a range that leaves the
    array. *)
Theorem seq_sort_wraps b e arr :
  is_size_t b → is_size_t e → e < b → valid_array arr →
  size_sub e b = SIZE_MODULUS - (b - e)
  ∧ seq_sort b e arr = (Fault, arr).
Proof.
  unfold is_size_t, valid_array, SIZEOF_INT64. intros Hb He Hlt Hv.
  assert (Hsub : size_sub e b = SIZE_MODULUS - (b - e)).
  { unfold size_sub. symmetry. apply Z.mod_unique with (q := -1); lia. }
  split; [done|]. unfold seq_sort. rewrite Hsub.
  destruct (Z.leb_spec (b + (SIZE_MODULUS - (b - e))) (Z.of_nat (length arr)));
    [lia|]. by rewrite andb_false_r.
Qed.

(** ** fatal, create_sort_process and wait_for_sort_process *)

Lemma bind_exits_with_1 {A B} (c : proc A) (k : A → proc B) :
  exits_with_1 c → (∀ a, exits_with_1 (k a)) → exits_with_1 (bind c k).
Proof.
  intros Hc Hk arr code msg arr'. unfold bind.
  destruct (c arr) as [[a|code' msg'| | |] arr1] eqn:Hrun; try done.
  - apply Hk.
  - intros [= <- <- <-]. by apply (Hc _ _ _ _ Hrun).
Qed.

Lemma merge_sort_exits_with_1 fuel os b e t :
  exits_with_1 (merge_sort fuel os b e t).
Proof.
  destruct fuel as [|fuel]; [done|]. simpl.
  apply bind_exits_with_1.
  { intros arr code msg arr'. unfold c_assert. by case_match. }
  intros _. case_match.
  { intros arr code msg arr'. unfold seq_sort. by case_match. }
  assert (Hcsp : ∀ sort ff sg b' e',
    exits_with_1 (create_sort_process sort ff sg b' e' t)).
  { intros sort ff sg b' e' arr code msg arr'. unfold create_sort_process.
    destruct ff; [by intros [= <- <- <-]|]. destruct sg; [done|].
    destruct (sort b' e' t arr) as [[[]|c m| | |] arr1]; done. }
  assert (Hwait : ∀ wf pid, exits_with_1 (wait_for_sort_process wf pid)).
  { intros wf pid arr code msg arr'. unfold wait_for_sort_process.
    destruct wf; [by intros [= <- <- <-]|].
    case_match; [by intros [= <- <- <-]|done]. }
  apply bind_exits_with_1; [apply Hcsp|]. intros left_pid.
  apply bind_exits_with_1; [apply Hcsp|]. intros right_pid.
  apply bind_exits_with_1; [apply Hwait|]. intros _.
  apply bind_exits_with_1; [apply Hwait|]. intros _.
  intros arr code msg arr'. unfold merge_halves.
  destruct (malloc_fails (os [])); [by intros [= <- <- <-]|].
  by repeat case_match.
Qed.

(** X5. Creating a child on a span with [begin <= end_] and then waiting
    for it.  The two calls return only when neither [fork] nor [waitpid]
    failed; the child then either returned from its [merge_sort], and the
    parent sees the array as the child left it, or was ended by a signal.
    A child that was ended by a signal lets the wait return like one that
    returned.  When the child's [merge_sort] ended in a fatal error, the
    parent's wait ends in the fatal error too. *)
Theorem create_then_wait fuel os fork_fails killed waitpid_fails b e t arr :
  b <= e →
  (∀ arr',
     (let* pid := create_sort_process (merge_sort fuel os) fork_fails killed
                    b e t in
      wait_for_sort_process waitpid_fails pid) arr = (Ret tt, arr') →
     fork_fails = false ∧ waitpid_fails = false
     ∧ (killed = None → merge_sort fuel os b e t arr = (Ret tt, arr')))
  ∧ (∀ arr',
       fork_fails = false → waitpid_fails = false → killed = None →
       merge_sort fuel os b e t arr = (Ret tt, arr') →
       (let* pid := create_sort_process (merge_sort fuel os) fork_fails killed
                      b e t in
        wait_for_sort_process waitpid_fails pid) arr = (Ret tt, arr'))
  ∧ (fork_fails = false → waitpid_fails = false → killed ≠ None →
     fst ((let* pid := create_sort_process (merge_sort fuel os) fork_fails
                         killed b e t in
           wait_for_sort_process waitpid_fails pid) arr) = Ret tt)
  ∧ (∀ code msg arr',
       fork_fails = false → waitpid_fails = false → killed = None →
       merge_sort fuel os b e t arr = (Exited code msg, arr') →
       (let* pid := create_sort_process (merge_sort fuel os) fork_fails killed
                      b e t in
        wait_for_sort_process waitpid_fails pid) arr
       = (Exited 1 "Error: Child process exited with error", arr')).
Proof.
  intros Hbe.
  pose proof (merge_sort_not_aborted fuel os b e t arr Hbe) as Hna.
  pose proof (merge_sort_exits_with_1 fuel os b e t arr) as Hex.
  assert (Hcsp :
    create_sort_process (merge_sort fuel os) fork_fails killed b e t arr =
    if fork_fails
    then (Exited 1 "Error: fork failed to start a new process", arr)
    else match killed with
         | Some s => (Ret (Pid (W_EXITCODE 0 (signo s))), arr)
         | None =>
             match child_status (merge_sort fuel os b e t arr).1 with
             | Some status =>
                 (Ret (Pid status), (merge_sort fuel os b e t arr).2)
             | None => (match (merge_sort fuel os b e t arr).1 with
                        | Fault => Fault | _ => Timeout end,
                        (merge_sort fuel os b e t arr).2)
             end
         end).
  { unfold create_sort_process. destruct fork_fails; [done|].
    destruct killed; [done|]. by destruct (merge_sort fuel os b e t arr). }
  unfold bind. rewrite Hcsp. clear Hcsp.
  destruct fork_fails; [by split_and!|].
  destruct killed as [s|].
  { rewrite wait_for_signalled.
    destruct waitpid_fails; [by split_and!|]. by split_and!. }
  destruct (merge_sort fuel os b e t arr) as [r arr1]. simpl in Hna. simpl.
  destruct r as [[]|code msg| | |]; simpl; [| |done| |].
  - rewrite wait_for_exit_0.
    destruct waitpid_fails; [by split_and!|].
    split_and!;
      first [done | by intros arr' [= <-] | by intros arr' _ _ _ [= <-]].
  - rewrite (Hex _ _ _ eq_refl).
    destruct (wait_for_exit_1 waitpid_fails arr1) as [m Hw].
    split_and!;
      first [ done | by intros arr'; rewrite Hw
            | by intros code' msg' arr' _ -> _ [= <- <- <-] ].
  - by split_and!.
  - by split_and!.
Qed.

(** ** merge_sort as a whole *)

(** X6. A call on a span inside the array never reads or writes outside the
    array or the temporary array and never reads a cell of the temporary
    array that was not written: it returns, or exits with status 1, or is
    still running when the recursion budget is used up. *)
Theorem merge_sort_memory_safe fuel os b e t arr :
  0 <= b <= e → e <= Z.of_nat (length arr) → valid_array arr → 0 <= t →
  fst (merge_sort fuel os b e t arr) ≠ Fault
  ∧ (fst (merge_sort fuel os b e t arr) = Ret tt
     ∨ fst (merge_sort fuel os b e t arr) = Timeout
     ∨ ∃ msg, fst (merge_sort fuel os b e t arr) = Exited 1 msg).
Proof.
  intros Hb He Hv Ht.
  destruct (merge_sort fuel os b e t arr) as [r arr'] eqn:Hrun. simpl.
  destruct (merge_sort_spec _ _ _ _ _ _ _ _ Hb He Hv Ht Hrun) as [_ Ho _ _ _].
  split; [|done]. by destruct Ho as [->|[->|[msg ->]]].
Qed.

(** ** The sort where no signal arrives *)

(** X16. Where no process is ended by a signal: for a segment with
    [begin <= end_] inside the array and a non-negative threshold, whenever
    [merge_sort] returns the cells [begin, end_) are in ascending order
    ([arr[i] <= arr[i+1]] for every [i] in [begin, end_ - 1)) and hold a
    rearrangement of the values they held before: nothing added, lost or
    duplicated.  With a threshold of at least one and nothing refused by
    the operating system the call does return. *)
Theorem merge_sort_sorts_span os arr b e t :
  0 <= b <= e → e <= Z.of_nat (length arr) → valid_array arr → 0 <= t →
  unsignalled os →
  (∀ fuel arr', merge_sort fuel os b e t arr = (Ret tt, arr') →
     ascending arr' b e ∧ span arr' b e ≡ₚ span arr b e)
  ∧ (healthy_env os → 1 <= t →
     ∃ fuel arr', merge_sort fuel os b e t arr = (Ret tt, arr')).
Proof.
  intros Hb He Hv Ht Hos. split.
  - intros fuel arr' Hrun.
    destruct (merge_sort_effect _ _ _ _ _ _ _ _ Hb He Hv Ht Hrun)
      as (Hlen & _ & Hp & Hs & _).
    split; [|done]. apply ascending_Sorted; [lia|lia|by apply Hs].
  - intros. by apply merge_sort_returns.
Qed.

(** X8. Where no process is ended by a signal: however a call ends, also
    in a fatal error, the span holds in the end (when the children that
    were created have come to their end) a rearrangement of the values it
    held: a failed sort loses no value and makes none up. *)
Theorem merge_sort_keeps_values fuel os b e t arr r arr' :
  0 <= b <= e → e <= Z.of_nat (length arr) → valid_array arr → 0 <= t →
  unsignalled os →
  merge_sort fuel os b e t arr = (r, arr') →
  span arr' b e ≡ₚ span arr b e ∧ arr' ≡ₚ arr.
Proof.
  intros Hb He Hv Ht _ Hrun.
  destruct (merge_sort_spec _ _ _ _ _ _ _ _ Hb He Hv Ht Hrun)
    as [(X' & -> & Hp & _) _ _ _ _].
  split.
  - rewrite (span_middle _ X'); [done|rewrite length_take; lia|].
    rewrite Hp, span_length by lia. lia.
  - rewrite Hp. rewrite <- (span_decompose arr b e) by lia. done.
Qed.

(** ** The span and nothing else *)

(** X9. What a call does depends on the values in its span and on nothing
    else: on the same values at another place of another array, the call
    ends the same way and leaves the same values in the span. *)
Theorem merge_sort_position_independent fuel os t P X Q P2 Q2 r arr' :
  valid_array (P ++ X ++ Q) → valid_array (P2 ++ X ++ Q2) → 0 <= t →
  merge_sort fuel os (Z.of_nat (length P))
    (Z.of_nat (length P) + Z.of_nat (length X)) t (P ++ X ++ Q) = (r, arr') →
  ∃ X', arr' = P ++ X' ++ Q
    ∧ merge_sort fuel os (Z.of_nat (length P2))
        (Z.of_nat (length P2) + Z.of_nat (length X)) t (P2 ++ X ++ Q2)
      = (r, P2 ++ X' ++ Q2).
Proof.
  intros Hv Hv2 Ht Hrun.
  destruct (merge_sort_lockstep fuel os t (length X) P Q P2 Q2
              (P ++ X ++ Q) (P2 ++ X ++ Q2) _ _ eq_refl eq_refl Hv Hv2 Ht)
    as [Hr (X' & _ & HX1 & HX2)]; [by exists X|].
  rewrite Hrun in Hr, HX1. simpl in Hr, HX1.
  exists X'. split; [done|].
  destruct (merge_sort fuel os (Z.of_nat (length P2)) _ t (P2 ++ X ++ Q2))
    as [r2 a2]. simpl in *. by subst.
Qed.

(** X10. The two children of a split do not disturb each other: running
    the right child before the left one ends each of them the same way and
    leaves the same array. *)
Theorem merge_sort_children_commute fuel os_left os_right b mid e t arr
    r_left arr1 r_right arr2 :
  0 <= b <= mid → mid <= e → e <= Z.of_nat (length arr) →
  valid_array arr → 0 <= t →
  merge_sort fuel os_left b mid t arr = (r_left, arr1) →
  merge_sort fuel os_right mid e t arr1 = (r_right, arr2) →
  ∃ arr1',
    merge_sort fuel os_right mid e t arr = (r_right, arr1')
    ∧ merge_sort fuel os_left b mid t arr1' = (r_left, arr2).
Proof. apply children_commute. Qed.

(** ** What the message of a fatal error says *)

Lemma bind_Exited_inv {A B} (c : proc A) (k : A → proc B) arr code msg arr' :
  bind c k arr = (Exited code msg, arr') →
  c arr = (Exited code msg, arr')
  ∨ ∃ a arr1, c arr = (Ret a, arr1) ∧ k a arr1 = (Exited code msg, arr').
Proof.
  unfold bind. destruct (c arr) as [[a|code' msg'| | |] arr1]; try done.
  - intros Hk. right. by exists a, arr1.
  - intros [= -> -> ->]. by left.
Qed.

Lemma create_sort_process_Exited_inv sort ff sg b e t arr code msg arr' :
  create_sort_process sort ff sg b e t arr = (Exited code msg, arr') →
  ff = true ∧ msg = "Error: fork failed to start a new process".
Proof.
  unfold create_sort_process. destruct ff; [by intros [= <- <- <-]|].
  destruct sg; [done|].
  destruct (sort b e t arr) as [[[]|c m| | |] arr1]; done.
Qed.

Lemma create_sort_process_Ret_inv sort ff sg b e t arr pid arr1 :
  create_sort_process sort ff sg b e t arr = (Ret pid, arr1) →
  (∃ s, sg = Some s ∧ status_of pid = W_EXITCODE 0 (signo s))
  ∨ (sg = None
     ∧ ∃ r, sort b e t arr = (r, arr1) ∧ child_status r = Some (status_of pid)).
Proof.
  unfold create_sort_process. destruct ff; [done|].
  destruct sg as [s|]; [intros [= <- <-]; left; by exists s|].
  destruct (sort b e t arr) as [r a]. intros Hc. right. split; [done|].
  exists r.
  destruct r as [[]|c m| | |]; simpl in Hc; try done;
    by injection Hc as <- <-.
Qed.

Lemma wait_for_sort_process_Exited_inv wf pid arr code msg arr' :
  wait_for_sort_process wf pid arr = (Exited code msg, arr') →
  (wf = true ∧ msg = "Error: waitpid failure")
  ∨ (msg = "Error: Child process exited with error"
     ∧ WIFEXITED (status_of pid) = true ∧ WEXITSTATUS (status_of pid) ≠ 0).
Proof.
  unfold wait_for_sort_process. destruct wf; [intros [= <- <- <-]; by left|].
  destruct (WIFEXITED (status_of pid)); simpl; [|done].
  destruct (Z.eqb_spec (WEXITSTATUS (status_of pid)) 0); simpl; [done|].
  intros [= <- <- <-]. by right.
Qed.

(** A status that says "exited with a code other than zero" is the status
    of a child whose [merge_sort] ended in a fatal error. *)
Lemma child_status_exited_nonzero r status :
  child_status r = Some status →
  WIFEXITED status = true → WEXITSTATUS status ≠ 0 →
  ∃ code msg, r = Exited code msg.
Proof.
  destruct r as [[]|code msg| | |]; simpl; try done.
  - by intros [= <-].
  - eauto.
  - by intros [= <-].
Qed.

(** X7. The message of the fatal error tells what happened in the call
    that ended with it: the fork message, that one of its two forks was
    refused; the waitpid message, that one of its two waits failed; the
    malloc message, that its temporary array was refused; the child
    message, that the [merge_sort] of its left child, on the left half of
    the array as the call found it, or the [merge_sort] of its right child,
    on the right half of the array as the left child left it, ended in a
    fatal error.  No other message occurs. *)
Theorem merge_sort_fatal_message fuel os b e t arr code msg arr' :
  merge_sort fuel os b e t arr = (Exited code msg, arr') →
  code = 1
  ∧ ((msg = "Error: fork failed to start a new process"
      ∧ (fork_fails_left (os []) = true ∨ fork_fails_right (os []) = true))
     ∨ (msg = "Error: waitpid failure"
        ∧ (waitpid_fails_left (os []) = true
           ∨ waitpid_fails_right (os []) = true))
     ∨ (msg = "malloc() failed" ∧ malloc_fails (os []) = true)
     ∨ (msg = "Error: Child process exited with error"
        ∧ ∃ fuel', fuel = S fuel'
          ∧ ((signal_left (os []) = None
              ∧ ∃ msg' arr1,
                  merge_sort fuel' (child_env false os)
                    b (size_add b (size_sub e b / 2)) t arr
                  = (Exited 1 msg', arr1))
             ∨ (signal_right (os []) = None
                ∧ ∃ left_pid arr1 msg' arr2,
                    create_sort_process
                      (merge_sort fuel' (child_env false os))
                      (fork_fails_left (os [])) (signal_left (os []))
                      b (size_add b (size_sub e b / 2)) t arr
                    = (Ret left_pid, arr1)
                    ∧ merge_sort fuel' (child_env true os)
                        (size_add b (size_sub e b / 2)) e t arr1
                      = (Exited 1 msg', arr2))))).
Proof.
  intros Hrun. split; [by apply (merge_sort_exits_with_1 _ _ _ _ _ _ _ _ _ Hrun)|].
  destruct fuel as [|fuel]; [done|]. simpl in Hrun.
  apply bind_Exited_inv in Hrun as [Hrun|(u & arr0 & Hassert & Hrun)].
  { unfold c_assert in Hrun. by case_match. }
  assert (arr0 = arr) as Harr0.
  { unfold c_assert in Hassert. destruct (e >=? b); [|done].
    injection Hassert as Heq. by symmetry. }
  subst arr0. clear Hassert.
  case_match.
  { unfold seq_sort in Hrun. by case_match. }
  set (mid := size_add b (size_sub e b / 2)) in *.
  assert (Hchild : ∀ os' sg b' e' arr1 pid arr2 ff,
    create_sort_process (merge_sort fuel os') ff sg b' e' t arr1
    = (Ret pid, arr2) →
    WIFEXITED (status_of pid) = true → WEXITSTATUS (status_of pid) ≠ 0 →
    sg = None
    ∧ ∃ msg', merge_sort fuel os' b' e' t arr1 = (Exited 1 msg', arr2)).
  { intros os' sg b' e' arr1 pid arr2 ff Hcsp Hexd Hnz.
    apply create_sort_process_Ret_inv in Hcsp
      as [(s & -> & Hst)|(-> & r & Hchild & Hst)].
    { rewrite Hst in Hexd. by destruct s. }
    destruct (child_status_exited_nonzero _ _ Hst Hexd Hnz) as (c & m & ->).
    pose proof (merge_sort_exits_with_1 _ _ _ _ _ _ _ _ _ Hchild) as ->.
    split; [done|]. by exists m. }
  apply bind_Exited_inv in Hrun as [Hrun|(left_pid & arr1 & Hleft & Hrun)].
  { apply create_sort_process_Exited_inv in Hrun as [? ->]. left. auto. }
  apply bind_Exited_inv in Hrun as [Hrun|(right_pid & arr2 & Hright & Hrun)].
  { apply create_sort_process_Exited_inv in Hrun as [? ->]. left. auto. }
  apply bind_Exited_inv in Hrun as [Hrun|(_ & arr3 & _ & Hrun)].
  { apply wait_for_sort_process_Exited_inv in Hrun as [[? ->]|(-> & ? & ?)].
    - right. left. auto.
    - right. right. right. split; [done|]. exists fuel. split; [done|]. left.
      destruct (Hchild _ _ _ _ _ _ _ _ Hleft) as (? & msg' & ?); [done..|].
      split; [done|]. by exists msg', arr1. }
  apply bind_Exited_inv in Hrun as [Hrun|(_ & arr4 & _ & Hrun)].
  { apply wait_for_sort_process_Exited_inv in Hrun as [[? ->]|(-> & ? & ?)].
    - right. left. auto.
    - right. right. right. split; [done|]. exists fuel. split; [done|]. right.
      destruct (Hchild _ _ _ _ _ _ _ _ Hright) as (? & msg' & ?); [done..|].
      split; [done|]. by exists left_pid, arr1, msg', arr2. }
  unfold merge_halves in Hrun.
  destruct (malloc_fails (os [])); [|by repeat case_match].
  injection Hrun as <- <- <-. right. right. left. done.
Qed.

End Rearrangement.

(** ** main *)

Lemma strtoul_base10_ulong s :
  0 <= (strtoul_base10 s).1 < SIZE_MODULUS.
Proof.
  unfold strtoul_base10.
  destruct (skip_space s 0) as [s1 n1].
  destruct (match s1 with
            | String c s' =>
                if (Ascii.nat_of_ascii c =? 45)%nat then (true, s', S n1)
                else if (Ascii.nat_of_ascii c =? 43)%nat then (false, s', S n1)
                else (false, s1, n1)
            | EmptyString => (false, s1, n1)
            end) as [[negative s2] n2].
  destruct (leading_digits s2 0 n2) as [v n3].
  destruct (n3 =? n2)%nat; [by vm_compute|].
  destruct (Z.leb_spec SIZE_MODULUS v); simpl; [by vm_compute|].
  apply Z.mod_pos_bound. by vm_compute.
Qed.

Definition c_strtoul : Strtoul := {|
  strtoul := strtoul_base10;
  strtoul_ulong := strtoul_base10_ulong
|}.

(** [strtoul] on some arguments: digits, digits and more, no digit, white
    space and signs, a value that does not fit. *)
Example strtoul_base10_values :
  strtoul_base10 "42" = (42, 2%nat)
  ∧ strtoul_base10 "2x" = (2, 1%nat)
  ∧ strtoul_base10 "abc" = (0, 0%nat)
  ∧ strtoul_base10 "" = (0, 0%nat)
  ∧ strtoul_base10 " 2" = (2, 2%nat)
  ∧ strtoul_base10 "+2" = (2, 2%nat)
  ∧ strtoul_base10 "-1" = (SIZE_MODULUS - 1, 2%nat)
  ∧ strtoul_base10 "-" = (0, 0%nat)
  ∧ strtoul_base10 "18446744073709551616" = (SIZE_MODULUS - 1, 20%nat).
Proof. split_and!; vm_compute; reflexivity. Qed.

Lemma span_all {A} (m : list A) : span m 0 (Z.of_nat (length m)) = m.
Proof.
  unfold span. rewrite Z.sub_0_r, Nat2Z.id. simpl. apply firstn_all.
Qed.

Section MainProperties.
Context {libc : Libc} {stdlib : Strtoul}.

(** Once the file is mapped, [main] is the sort of the whole file and the
    two calls that give the file back. *)
Lemma main_mapped fuel os sys argv file :
  file_of sys file → mapped sys argv →
  main fuel os sys argv file =
    let arg := default "" (argv !! 2%nat) in
    let invalid :=
      if ((strtoul arg).2 =? String.length arg)%nat then []
      else ["Error: threshold value is invalid"] in
    match merge_sort fuel os 0 (Z.of_nat (length file)) (strtoul arg).1 file with
    | (Ret _, data) =>
        let unmap :=
          if munmap_rc sys =? 0 then [] else ["Failed to unmap the file"] in
        if negb (close_rc sys =? 0) then
          (invalid ++ unmap ++ ["Failed to close the file"], (Ret 1, data))
        else (invalid ++ unmap, (Ret 0, data))
    | (Exited code msg, data) =>
        (invalid ++ ["Error: " +:+ msg], (Exited code msg, data))
    | (Aborted, data) => (invalid, (Aborted, data))
    | (Fault, data) => (invalid, (Fault, data))
    | (Timeout, data) => (invalid, (Timeout, data))
    end.
Proof.
  intros [Hsize Hlen] (Hargc & Hopen & Hfstat & Hmmap). unfold main.
  rewrite Hargc, Hfstat, Hmmap. simpl.
  destruct (strtoul (default "" (argv !! 2%nat))) as [threshold end_]. simpl.
  destruct (Z.ltb_spec (open_fd sys) 0); [lia|].
  rewrite Z.mod_small by (unfold SIZE_MODULUS; lia).
  by rewrite <- Hlen.
Qed.

Lemma file_valid sys file : file_of sys file → valid_array file.
Proof.
  intros [Hsize Hlen]. unfold valid_array, SIZEOF_INT64, SIZE_MODULUS.
  pose proof (Z.mul_div_le (st_size sys) 8). lia.
Qed.

(** The sort of the whole file. *)
Lemma whole_file_sort fuel os sys file t r data :
  file_of sys file → 0 <= t →
  merge_sort fuel os 0 (Z.of_nat (length file)) t file = (r, data) →
  data ≡ₚ file
  ∧ (r = Ret tt → unsignalled os → ascending data 0 (Z.of_nat (length data)))
  ∧ (r = Ret tt ∨ r = Timeout ∨ ∃ msg, r = Exited 1 msg)
  ∧ (r = Ret tt → unsignalled os → 1 <= t ∨ file = [])
  ∧ ((∃ msg, r = Exited 1 msg) → ¬ healthy_env os).
Proof.
  intros Hfile Ht Hrun.
  apply merge_sort_spec in Hrun as [(X' & Harr & Hp & Hs & _) Ho _ Hex Hret];
    [|lia|lia|by eapply file_valid|done].
  rewrite span_all in Hp, Hret.
  rewrite Nat2Z.id, drop_all, app_nil_r in Harr. simpl in Harr. subst X'.
  split_and!; [done| |done..].
  intros Hr Hos. apply ascending_Sorted; [lia|lia|].
  rewrite span_all. by apply Hs.
Qed.

(** What a return of 0 from [main] tells. *)
Lemma main_Ret_0_inv fuel os sys argv file err data :
  file_of sys file →
  main fuel os sys argv file = (err, (Ret 0, data)) →
  mapped sys argv ∧ close_rc sys = 0
  ∧ ∃ fuel',
      merge_sort fuel' os 0 (Z.of_nat (length file))
        (strtoul (default "" (argv !! 2%nat))).1 file = (Ret tt, data).
Proof.
  intros Hfile Hmain.
  assert (Hmapped : mapped sys argv).
  { unfold main in Hmain. unfold mapped.
    destruct (Z.eqb_spec (Z.of_nat (length argv)) 3); simpl in Hmain; [|done].
    destruct (strtoul _) as [threshold end_].
    destruct (Z.ltb_spec (open_fd sys) 0); [done|].
    destruct (Z.eqb_spec (fstat_rc sys) 0); simpl in Hmain; [|done].
    destruct (mmap_fails sys); [done|]. split_and!; [lia|done..]. }
  rewrite main_mapped in Hmain by done. cbv zeta in Hmain.
  destruct (merge_sort fuel os 0 _ _ file) as [r data'] eqn:Hrun.
  destruct r as [[]| | | |]; try done.
  destruct (Z.eqb_spec (close_rc sys) 0); simpl in Hmain; [|done].
  injection Hmain as _ <-.
  split_and!; [done|done|by exists fuel].
Qed.

(** X11. When [main] returns 0, the command line had its two arguments,
    the file was opened, measured, mapped and closed without an error and
    [merge_sort] has returned; where no process was ended by a signal, the
    file holds its former words in ascending order. *)
Theorem main_returns_0 fuel os sys argv file err data :
  file_of sys file →
  main fuel os sys argv file = (err, (Ret 0, data)) →
  mapped sys argv ∧ close_rc sys = 0
  ∧ (∃ fuel',
       merge_sort fuel' os 0 (Z.of_nat (length file))
         (strtoul (default "" (argv !! 2%nat))).1 file = (Ret tt, data))
  ∧ (unsignalled os →
     ascending data 0 (Z.of_nat (length data)) ∧ data ≡ₚ file).
Proof.
  intros Hfile Hmain.
  destruct (main_Ret_0_inv _ _ _ _ _ _ _ Hfile Hmain)
    as (Hmapped & Hclose & fuel' & Hrun).
  split_and!; [done|done|by exists fuel'|].
  intros Hos.
  apply (whole_file_sort _ _ sys) in Hrun as (Hp & Hs & _);
    [|done|apply strtoul_ulong].
  split; [by apply Hs|done].
Qed.

(** A run in a healthy system. *)
Lemma main_healthy_run os sys argv file :
  file_of sys file → mapped sys argv → healthy_env os →
  1 <= (strtoul (default "" (argv !! 2%nat))).1 →
  ∃ fuel data,
    main fuel os sys argv file
    = ((if ((strtoul (default "" (argv !! 2%nat))).2
            =? String.length (default "" (argv !! 2%nat)))%nat
        then [] else ["Error: threshold value is invalid"])
       ++ (if munmap_rc sys =? 0 then [] else ["Failed to unmap the file"])
       ++ (if close_rc sys =? 0 then [] else ["Failed to close the file"]),
       (Ret (if close_rc sys =? 0 then 0 else 1), data))
    ∧ ascending data 0 (Z.of_nat (length data))
    ∧ data ≡ₚ file.
Proof.
  intros Hfile Hmapped Hos Ht.
  set (t := (strtoul (default "" (argv !! 2%nat))).1) in *.
  pose proof (Z.log2_up_nonneg (Z.of_nat (length file) - 0)).
  set (fuel := S (Z.to_nat (Z.log2_up (Z.of_nat (length file) - 0)))).
  destruct (merge_sort_terminates fuel os 0 (Z.of_nat (length file)) t file)
    as [_ Hret]; [lia|lia|by eapply file_valid|lia|by left|lia|].
  specialize (Hret Hos).
  destruct (merge_sort fuel os 0 (Z.of_nat (length file)) t file)
    as [r data] eqn:Hrun. simpl in Hret. subst r.
  pose proof Hrun as Hrun'.
  apply (whole_file_sort _ _ sys) in Hrun' as (Hp & Hasc & _); [|done|lia].
  specialize (Hasc eq_refl (healthy_unsignalled _ Hos)).
  exists fuel, data. rewrite main_mapped by done. cbv zeta. fold t.
  rewrite Hrun.
  destruct (Z.eqb_spec (close_rc sys) 0); simpl;
    by rewrite ?app_nil_r.
Qed.

(** X12. With a threshold of at least one, and nothing refused or
    signalled to the sorting processes, a run that gets the file mapped
    sorts it and comes to its end: it returns 0 when [close] succeeds and 1
    when it fails, the file being sorted in both cases.  On stderr there
    are the complaint about the threshold when [strtoul] did not read the
    argument to its end, a line when [munmap] failed, a line when [close]
    failed, in this order, and nothing else: a failure of [munmap] changes
    nothing but its line. *)
Theorem main_sorts os sys argv file :
  file_of sys file → mapped sys argv → healthy_env os →
  1 <= (strtoul (default "" (argv !! 2%nat))).1 →
  ∃ fuel data,
    main fuel os sys argv file
    = ((if ((strtoul (default "" (argv !! 2%nat))).2
            =? String.length (default "" (argv !! 2%nat)))%nat
        then [] else ["Error: threshold value is invalid"])
       ++ (if munmap_rc sys =? 0 then [] else ["Failed to unmap the file"])
       ++ (if close_rc sys =? 0 then [] else ["Failed to close the file"]),
       (Ret (if close_rc sys =? 0 then 0 else 1), data))
    ∧ ascending data 0 (Z.of_nat (length data))
    ∧ data ≡ₚ file.
Proof. apply main_healthy_run. Qed.

(** X13. A threshold argument that [strtoul] does not read to its end is
    reported and nothing more: the run goes on with the value that was
    read.  When that value is at least one and nothing else goes wrong,
    the only line on stderr is the complaint, the file is sorted and
    [main] returns 0. *)
Theorem main_invalid_threshold_goes_on os sys argv file :
  file_of sys file → mapped sys argv → healthy_env os →
  munmap_rc sys = 0 → close_rc sys = 0 →
  let arg := default "" (argv !! 2%nat) in
  (strtoul arg).2 ≠ String.length arg →
  1 <= (strtoul arg).1 →
  ∃ fuel data,
    main fuel os sys argv file
    = (["Error: threshold value is invalid"], (Ret 0, data))
    ∧ ascending data 0 (Z.of_nat (length data))
    ∧ data ≡ₚ file.
Proof.
  intros Hfile Hmapped Hos Hmunmap Hclose arg Hend Ht.
  destruct (main_healthy_run os sys argv file Hfile Hmapped Hos Ht)
    as (fuel & data & Hmain & Hasc & Hp).
  exists fuel, data. split_and!; [|done..].
  rewrite Hmain. fold arg. rewrite Hclose, Hmunmap. simpl.
  by destruct (Nat.eqb_spec (strtoul arg).2 (String.length arg)).
Qed.

(** X14. With a threshold of zero and a file of at least one word: where
    no process is ended by a signal, [main] never returns 0, whatever the
    operating system refuses; where nothing is refused either, the sort
    never comes to an end. *)
Theorem main_threshold_0 fuel os sys argv file :
  file_of sys file → file ≠ [] →
  (strtoul (default "" (argv !! 2%nat))).1 = 0 →
  (unsignalled os → (main fuel os sys argv file).2.1 ≠ Ret 0)
  ∧ (mapped sys argv → healthy_env os →
     (main fuel os sys argv file).2.1 = Timeout).
Proof.
  intros Hfile Hne Ht.
  assert (Hsort : ∀ fuel' r data,
    merge_sort fuel' os 0 (Z.of_nat (length file))
      (strtoul (default "" (argv !! 2%nat))).1 file = (r, data) →
    (unsignalled os → r ≠ Ret tt) ∧ (healthy_env os → r = Timeout)).
  { intros fuel' r data Hrun.
    apply (whole_file_sort _ _ sys) in Hrun as (_ & _ & Ho & Hret & Hex);
      [|done|apply strtoul_ulong].
    assert (unsignalled os → r ≠ Ret tt) as Hnr.
    { intros Hos Hr. destruct (Hret Hr Hos) as [?|Hnil]; [lia|done]. }
    split; [done|]. intros Hos.
    destruct Ho as [Hr|[?|?]]; [|done|by destruct Hex].
    by destruct (Hnr (healthy_unsignalled _ Hos)). }
  split.
  - intros Hos Hmain.
    destruct (main fuel os sys argv file) as [err [r data]] eqn:Heq.
    simpl in Hmain. subst r.
    destruct (main_Ret_0_inv _ _ _ _ _ _ _ Hfile Heq)
      as (_ & _ & fuel' & Hrun).
    by destruct (Hsort _ _ _ Hrun) as [Hnr _]; destruct (Hnr Hos).
  - intros Hmapped Hos. rewrite main_mapped by done. cbv zeta.
    destruct (merge_sort fuel os 0 _ _ file) as [r data'] eqn:Hrun.
    destruct (Hsort _ _ _ Hrun) as [_ Hto]. by rewrite (Hto Hos).
Qed.

(** X15. However [main] ends, the process has returned 0 or 1 from
    [main], or exited with status 1, or is still sorting; where no process
    was ended by a signal, the file holds in the end (when the children
    that were created have come to their end) the words it held, in some
    order.  When the command line is wrong or the file cannot be opened,
    measured or mapped, [main] returns 1 and the file is as it was. *)
Theorem main_keeps_the_file fuel os sys argv file err r data :
  file_of sys file →
  main fuel os sys argv file = (err, (r, data)) →
  (unsignalled os → data ≡ₚ file)
  ∧ (r = Ret 0 ∨ r = Ret 1 ∨ r = Timeout ∨ ∃ msg, r = Exited 1 msg)
  ∧ (¬ mapped sys argv → r = Ret 1 ∧ data = file).
Proof.
  intros Hfile Hmain.
  destruct (decide (mapped sys argv)) as [Hmapped|Hnot].
  - rewrite main_mapped in Hmain by done. cbv zeta in Hmain.
    destruct (merge_sort fuel os 0 _ _ file) as [r' data'] eqn:Hrun.
    apply (whole_file_sort _ _ sys) in Hrun as (Hp & _ & Ho & _);
      [|done|apply strtoul_ulong].
    split_and!; [| |done].
    + intros _.
      destruct r' as [[]| | | |]; try (by injection Hmain as _ <- <-).
      by case_match; injection Hmain as _ <- <-.
    + destruct Ho as [->|[->|[msg ->]]].
      * case_match; injection Hmain as _ <- <-; auto.
      * injection Hmain as _ <- <-; auto.
      * injection Hmain as _ <- <-. right. right. right. by exists msg.
  - assert (r = Ret 1 ∧ data = file) as [-> ->].
    { unfold main in Hmain. unfold mapped in Hnot.
      destruct (Z.eqb_spec (Z.of_nat (length argv)) 3); simpl in Hmain;
        [|by injection Hmain as _ <- <-].
      destruct (strtoul _) as [threshold end_].
      destruct (Z.ltb_spec (open_fd sys) 0); [by injection Hmain as _ <- <-|].
      destruct (Z.eqb_spec (fstat_rc sys) 0); simpl in Hmain;
        [|by injection Hmain as _ <- <-].
      destruct (mmap_fails sys) eqn:Hmm; [by injection Hmain as _ <- <-|].
      destruct Hnot. split_and!; [lia|done..]. }
    split_and!; auto.
Qed.

End MainProperties.

(** ** Small runs of main *)

(** A file of eight words and three more bytes, and a system that answers
    every call of [main] with success. *)
Definition sys_ok : os_calls := {|
  open_fd := 3; fstat_rc := 0; st_size := 67;
  mmap_fails := false; munmap_rc := 0; close_rc := 0;
  strerror_errno := "Success"
|}.

(** The same file in a system where [munmap] and [close] fail. *)
Definition sys_stuck : os_calls := {|
  open_fd := 3; fstat_rc := 0; st_size := 67;
  mmap_fails := false; munmap_rc := -1; close_rc := -1;
  strerror_errno := "Input/output error"
|}.

Example main_scenario :
  main (libc := insertion_libc) (stdlib := c_strtoul) 3 healthy sys_ok
    ["parsort"; "data.bin"; "2"] [5; 3; 8; 1; 9; 2; 7; 4]
  = ([], (Ret 0, [1; 2; 3; 4; 5; 7; 8; 9])).
Proof. vm_compute. reflexivity. Qed.

Example main_usage :
  main (libc := insertion_libc) (stdlib := c_strtoul) 3 healthy sys_ok
    ["parsort"; "data.bin"] [5; 3; 8; 1; 9; 2; 7; 4]
  = (["Usage: parsort <filename> <sequential threshold>"],
     (Ret 1, [5; 3; 8; 1; 9; 2; 7; 4])).
Proof. vm_compute. reflexivity. Qed.

Example main_threshold_2x :
  main (libc := insertion_libc) (stdlib := c_strtoul) 3 healthy sys_ok
    ["parsort"; "data.bin"; "2x"] [5; 3; 8; 1; 9; 2; 7; 4]
  = (["Error: threshold value is invalid"], (Ret 0, [1; 2; 3; 4; 5; 7; 8; 9])).
Proof. vm_compute. reflexivity. Qed.

(** [fstat] fails: two lines from [perror], and the file is not touched. *)
Example main_fstat_fails :
  main (libc := insertion_libc) (stdlib := c_strtoul) 3 healthy
    {| open_fd := 3; fstat_rc := -1; st_size := 0; mmap_fails := false;
       munmap_rc := 0; close_rc := 0;
       strerror_errno := "Bad file descriptor" |}
    ["parsort"; "data.bin"; "2"] [5; 3; 8; 1; 9; 2; 7; 4]
  = (["Error: Failed to get file status"; ": Bad file descriptor"],
     (Ret 1, [5; 3; 8; 1; 9; 2; 7; 4])).
Proof. vm_compute. reflexivity. Qed.

(** The right child of the root is killed: [main] returns 0 and the file
    is not sorted. *)
Example main_killed_right :
  main (libc := insertion_libc) (stdlib := c_strtoul) 3 killed_right sys_ok
    ["parsort"; "data.bin"; "2"] [5; 3; 8; 1; 9; 2; 7; 4]
  = ([], (Ret 0, [1; 3; 5; 8; 9; 2; 7; 4])).
Proof. vm_compute. reflexivity. Qed.

(** ** The further properties at concrete inputs *)

Lemma merge_halves_rearranges_witness :
  ∃ arr', merge_halves false 0 2 4 (4 - 0) [3; 1; 0; 2] = (Ret tt, arr')
    ∧ length arr' = length [3; 1; 0; 2]
    ∧ span arr' 0 4 ≡ₚ span [3; 1; 0; 2] 0 4
    ∧ ∀ i, i < 0 ∨ 4 <= i → load arr' i = load [3; 1; 0; 2] i.
Proof.
  apply (merge_halves_rearranges [3; 1; 0; 2] 0 2 4);
    [lia|lia|simpl; lia|by vm_compute].
Defined.

Lemma merge_short_buffer_witness :
  merge [1; 4; 7; 2; 2; 9] 0 3 6 (fresh_buffer 40) = None.
Proof.
  apply (merge_short_buffer [1; 4; 7; 2; 2; 9] 0 3 6 (fresh_buffer 40));
    [lia|lia|simpl; lia|by vm_compute].
Defined.

Lemma seq_sort_wraps_witness :
  size_sub 1 3 = SIZE_MODULUS - (3 - 1)
  ∧ seq_sort (libc := insertion_libc) 3 1 [9; 5; 4; 3; 0]
    = (Fault, [9; 5; 4; 3; 0]).
Proof.
  apply (seq_sort_wraps (libc := insertion_libc) 3 1 [9; 5; 4; 3; 0]);
    [by vm_compute|by vm_compute|lia|by vm_compute].
Defined.

Lemma create_then_wait_witness :
  (let* pid :=
     create_sort_process (merge_sort (libc := insertion_libc) 3 healthy)
       false None 0 3 1
   in wait_for_sort_process false pid) [3; 1; 2] = (Ret tt, [1; 2; 3])
  ∧ fst ((let* pid :=
            create_sort_process (merge_sort (libc := insertion_libc) 3 healthy)
              false (Some SIGKILL) 0 3 1
          in wait_for_sort_process false pid) [3; 1; 2]) = Ret tt.
Proof.
  split.
  - apply (proj1 (proj2 (create_then_wait (libc := insertion_libc) 3 healthy
                           false None false 0 3 1 [3; 1; 2] ltac:(lia)))
                 [1; 2; 3] eq_refl eq_refl eq_refl).
    vm_compute. reflexivity.
  - apply (proj1 (proj2 (proj2 (create_then_wait (libc := insertion_libc) 3
                                  healthy false (Some SIGKILL) false 0 3 1
                                  [3; 1; 2] ltac:(lia))))
                 eq_refl eq_refl).
    discriminate.
Defined.

Lemma merge_sort_memory_safe_witness :
  fst (merge_sort (libc := insertion_libc) 3 starved_right 0 8 2
         [5; 3; 8; 1; 9; 2; 7; 4]) ≠ Fault.
Proof.
  apply (merge_sort_memory_safe (libc := insertion_libc) 3 starved_right
           0 8 2 [5; 3; 8; 1; 9; 2; 7; 4]);
    [lia|simpl; lia|by vm_compute|lia].
Defined.

Lemma merge_sort_fatal_message_witness :
  1 = 1
  ∧ (("Error: Child process exited with error"
      = "Error: fork failed to start a new process"
      ∧ (fork_fails_left (starved_right []) = true
         ∨ fork_fails_right (starved_right []) = true))
     ∨ ("Error: Child process exited with error" = "Error: waitpid failure"
        ∧ (waitpid_fails_left (starved_right []) = true
           ∨ waitpid_fails_right (starved_right []) = true))
     ∨ ("Error: Child process exited with error" = "malloc() failed"
        ∧ malloc_fails (starved_right []) = true)
     ∨ ("Error: Child process exited with error"
        = "Error: Child process exited with error"
        ∧ ∃ fuel', 3%nat = S fuel'
          ∧ ((signal_left (starved_right []) = None
              ∧ ∃ msg' arr1,
                  merge_sort (libc := insertion_libc) fuel'
                    (child_env false starved_right)
                    0 (size_add 0 (size_sub 8 0 / 2)) 2
                    [5; 3; 8; 1; 9; 2; 7; 4]
                  = (Exited 1 msg', arr1))
             ∨ (signal_right (starved_right []) = None
                ∧ ∃ left_pid arr1 msg' arr2,
                    create_sort_process
                      (merge_sort (libc := insertion_libc) fuel'
                         (child_env false starved_right))
                      (fork_fails_left (starved_right []))
                      (signal_left (starved_right []))
                      0 (size_add 0 (size_sub 8 0 / 2)) 2
                      [5; 3; 8; 1; 9; 2; 7; 4]
                    = (Ret left_pid, arr1)
                    ∧ merge_sort (libc := insertion_libc) fuel'
                        (child_env true starved_right)
                        (size_add 0 (size_sub 8 0 / 2)) 8 2 arr1
                      = (Exited 1 msg', arr2))))).
Proof.
  apply (merge_sort_fatal_message (libc := insertion_libc) 3 starved_right
           0 8 2 [5; 3; 8; 1; 9; 2; 7; 4] 1
           "Error: Child process exited with error"
           [1; 3; 5; 8; 2; 9; 4; 7]).
  vm_compute. reflexivity.
Defined.

Lemma merge_sort_sorts_span_witness :
  ascending [1; 2; 3; 4; 5; 7; 8; 9] 0 8
  ∧ span [1; 2; 3; 4; 5; 7; 8; 9] 0 8 ≡ₚ span [5; 3; 8; 1; 9; 2; 7; 4] 0 8.
Proof.
  apply (proj1 (merge_sort_sorts_span (libc := insertion_libc) healthy
                  [5; 3; 8; 1; 9; 2; 7; 4] 0 8 2
                  ltac:(lia) ltac:(simpl; lia) ltac:(by vm_compute) ltac:(lia)
                  healthy_is_unsignalled)
               3%nat).
  vm_compute. reflexivity.
Defined.

Lemma merge_sort_keeps_values_witness :
  span [1; 3; 5; 8; 2; 9; 4; 7] 0 8 ≡ₚ span [5; 3; 8; 1; 9; 2; 7; 4] 0 8
  ∧ [1; 3; 5; 8; 2; 9; 4; 7] ≡ₚ [5; 3; 8; 1; 9; 2; 7; 4].
Proof.
  apply (merge_sort_keeps_values (libc := insertion_libc) 3 starved_right
           0 8 2 [5; 3; 8; 1; 9; 2; 7; 4]
           (Exited 1 "Error: Child process exited with error")
           [1; 3; 5; 8; 2; 9; 4; 7]);
    [lia|simpl; lia|by vm_compute|lia|apply starved_right_is_unsignalled|].
  vm_compute. reflexivity.
Defined.

Lemma merge_sort_position_independent_witness :
  ∃ X', [9; 3; 4; 5; 0] = [9] ++ X' ++ [0]
    ∧ merge_sort (libc := insertion_libc) 3 healthy
        (Z.of_nat (length [7; 7])) (Z.of_nat (length [7; 7])
                                     + Z.of_nat (length [5; 4; 3]))
        1 ([7; 7] ++ [5; 4; 3] ++ [])
      = (Ret tt, [7; 7] ++ X' ++ []).
Proof.
  apply (merge_sort_position_independent (libc := insertion_libc) 3 healthy 1
           [9] [5; 4; 3] [0] [7; 7] [] (Ret tt) [9; 3; 4; 5; 0]);
    [by vm_compute|by vm_compute|lia|].
  vm_compute. reflexivity.
Defined.

Lemma merge_sort_children_commute_witness :
  ∃ arr1',
    merge_sort (libc := insertion_libc) 2 healthy 2 4 1 [3; 1; 2; 0]
    = (Ret tt, arr1')
    ∧ merge_sort (libc := insertion_libc) 2 healthy 0 2 1 arr1'
      = (Ret tt, [1; 3; 0; 2]).
Proof.
  apply (merge_sort_children_commute (libc := insertion_libc) 2 healthy healthy
           0 2 4 1 [3; 1; 2; 0] (Ret tt) [1; 3; 2; 0] (Ret tt) [1; 3; 0; 2]);
    [lia|lia|simpl; lia|by vm_compute|lia| |]; vm_compute; reflexivity.
Defined.

Lemma sys_ok_file : file_of sys_ok [5; 3; 8; 1; 9; 2; 7; 4].
Proof. split; [simpl; lia|reflexivity]. Defined.

Lemma sys_ok_mapped arg : mapped sys_ok ["parsort"; "data.bin"; arg].
Proof. split_and!; [reflexivity|simpl; lia|reflexivity|reflexivity]. Defined.

Lemma sys_stuck_file : file_of sys_stuck [5; 3; 8; 1; 9; 2; 7; 4].
Proof. split; [simpl; lia|reflexivity]. Defined.

Lemma sys_stuck_mapped arg : mapped sys_stuck ["parsort"; "data.bin"; arg].
Proof. split_and!; [reflexivity|simpl; lia|reflexivity|reflexivity]. Defined.

Lemma main_returns_0_witness :
  mapped sys_ok ["parsort"; "data.bin"; "2"] ∧ close_rc sys_ok = 0
  ∧ (∃ fuel',
       merge_sort (libc := insertion_libc) fuel' healthy 0
         (Z.of_nat (length [5; 3; 8; 1; 9; 2; 7; 4]))
         (strtoul (Strtoul := c_strtoul)
            (default "" (["parsort"; "data.bin"; "2"] !! 2%nat))).1
         [5; 3; 8; 1; 9; 2; 7; 4]
       = (Ret tt, [1; 2; 3; 4; 5; 7; 8; 9]))
  ∧ (unsignalled healthy →
     ascending [1; 2; 3; 4; 5; 7; 8; 9]
       0 (Z.of_nat (length [1; 2; 3; 4; 5; 7; 8; 9]))
     ∧ [1; 2; 3; 4; 5; 7; 8; 9] ≡ₚ [5; 3; 8; 1; 9; 2; 7; 4]).
Proof.
  apply (main_returns_0 (libc := insertion_libc) (stdlib := c_strtoul)
           3 healthy sys_ok ["parsort"; "data.bin"; "2"]
           [5; 3; 8; 1; 9; 2; 7; 4] [] [1; 2; 3; 4; 5; 7; 8; 9] sys_ok_file).
  vm_compute. reflexivity.
Defined.

Lemma main_sorts_witness :
  ∃ fuel data,
    main (libc := insertion_libc) (stdlib := c_strtoul) fuel healthy
      sys_stuck ["parsort"; "data.bin"; "2"] [5; 3; 8; 1; 9; 2; 7; 4]
    = (["Failed to unmap the file"; "Failed to close the file"],
       (Ret 1, data))
    ∧ ascending data 0 (Z.of_nat (length data))
    ∧ data ≡ₚ [5; 3; 8; 1; 9; 2; 7; 4].
Proof.
  apply (main_sorts (libc := insertion_libc) (stdlib := c_strtoul)
           healthy sys_stuck ["parsort"; "data.bin"; "2"]
           [5; 3; 8; 1; 9; 2; 7; 4] sys_stuck_file (sys_stuck_mapped "2")
           healthy_is_healthy).
  vm_compute. discriminate.
Defined.

Lemma main_invalid_threshold_goes_on_witness :
  ∃ fuel data,
    main (libc := insertion_libc) (stdlib := c_strtoul) fuel healthy
      sys_ok ["parsort"; "data.bin"; "2x"] [5; 3; 8; 1; 9; 2; 7; 4]
    = (["Error: threshold value is invalid"], (Ret 0, data))
    ∧ ascending data 0 (Z.of_nat (length data))
    ∧ data ≡ₚ [5; 3; 8; 1; 9; 2; 7; 4].
Proof.
  apply (main_invalid_threshold_goes_on (libc := insertion_libc)
           (stdlib := c_strtoul) healthy sys_ok
           ["parsort"; "data.bin"; "2x"] [5; 3; 8; 1; 9; 2; 7; 4]
           sys_ok_file (sys_ok_mapped "2x") healthy_is_healthy
           eq_refl eq_refl).
  - vm_compute. discriminate.
  - vm_compute. discriminate.
Defined.

Lemma main_threshold_0_witness :
  (unsignalled healthy →
   (main (libc := insertion_libc) (stdlib := c_strtoul) 6 healthy sys_ok
      ["parsort"; "data.bin"; "0"] [5; 3; 8; 1; 9; 2; 7; 4]).2.1 ≠ Ret 0)
  ∧ (mapped sys_ok ["parsort"; "data.bin"; "0"] → healthy_env healthy →
     (main (libc := insertion_libc) (stdlib := c_strtoul) 6 healthy
        sys_ok ["parsort"; "data.bin"; "0"]
        [5; 3; 8; 1; 9; 2; 7; 4]).2.1 = Timeout).
Proof.
  apply (main_threshold_0 (libc := insertion_libc) (stdlib := c_strtoul)
           6 healthy sys_ok ["parsort"; "data.bin"; "0"]
           [5; 3; 8; 1; 9; 2; 7; 4] sys_ok_file);
    [done|reflexivity].
Defined.

Lemma main_keeps_the_file_witness :
  (unsignalled starved_right →
   [1; 3; 5; 8; 2; 9; 4; 7] ≡ₚ [5; 3; 8; 1; 9; 2; 7; 4])
  ∧ (@Exited Z 1 "Error: Child process exited with error" = Ret 0
     ∨ @Exited Z 1 "Error: Child process exited with error" = Ret 1
     ∨ @Exited Z 1 "Error: Child process exited with error" = Timeout
     ∨ ∃ msg, @Exited Z 1 "Error: Child process exited with error"
              = Exited 1 msg)
  ∧ (¬ mapped sys_ok ["parsort"; "data.bin"; "2"] →
     @Exited Z 1 "Error: Child process exited with error" = Ret 1
     ∧ [1; 3; 5; 8; 2; 9; 4; 7] = [5; 3; 8; 1; 9; 2; 7; 4]).
Proof.
  apply (main_keeps_the_file (libc := insertion_libc)
           (stdlib := c_strtoul) 3 starved_right sys_ok
           ["parsort"; "data.bin"; "2"] [5; 3; 8; 1; 9; 2; 7; 4]
           ["Error: Error: Child process exited with error"]
           (Exited 1 "Error: Child process exited with error")
           [1; 3; 5; 8; 2; 9; 4; 7] sys_ok_file).
  vm_compute. reflexivity.
Defined.
